(** * Royston–Parmar spline survival models: the cumulative-hazard layer

    A shallow embedding of [replications/Royston_Parmar_2002.py]:
    the restricted-cubic-spline basis of [SplineFitter] and the
    [_cumulative_hazard] methods of [PHSplineFitter], [POSplineFitter]
    and [AltWeibullFitter].

    Numbers are real numbers: every numpy [float64] operation is read as
    the real function it approximates ([np.exp] as [exp], [np.log] as
    [ln], [np.log1p x] as [ln (1 + x)]).  Rounding and overflow are
    outside the model, and so is [np.log] at times that are not
    positive; of underflow the model keeps the threshold below which
    float64 returns [0.0] ([float64_underflow]), and statements about
    signs carry the range of arguments in which [np.exp] neither
    underflows nor overflows.  Exceptions are modelled: a missing
    dictionary key, a missing attribute, an index out of range and
    shapes that do not broadcast.  The methods [basis] and [relu] are
    called on [SplineFitter] directly: [self] is taken to be an instance
    of a class that inherits them. *)

From Stdlib Require Import Reals Lra Lia ZArith.
From stdpp Require Import base option list strings gmap.

#[local] Open Scope R_scope.

(** ** Exceptions and the error monad *)

Module Py.

Inductive exn : Type :=
  | KeyError (key : string)
  | AttributeError (name : string)
  | IndexError
  | TypeError
  | ValueError.

Inductive result (A : Type) : Type :=
  | Ok (a : A)
  | Raise (e : exn).
Arguments Ok {A} a.
Arguments Raise {A} e.

#[global] Instance result_ret : MRet result := fun A a => Ok a.

#[global] Instance result_bind : MBind result := fun A B k m =>
  match m with
  | Ok a => k a
  | Raise e => Raise e
  end.

(** Attribute values that occur in the class bodies. *)
Inductive value : Type :=
  | VStr (s : string)
  | VBool (b : bool)
  | VStrList (l : list string)
  | VFloatList (l : list R)
  | VDict (d : gmap string R).

(** An object is its own [__dict__] followed by the [__dict__]s of the
    classes of its method-resolution order; [getattr] returns the first
    hit. *)
Definition getattr (o : list (gmap string value)) (name : string) : result value :=
  match list_find (fun d : gmap string value => is_Some (d !! name)) o with
  | Some (_, d) => match d !! name with
                   | Some v => Ok v
                   | None => Raise (AttributeError name)
                   end
  | None => Raise (AttributeError name)
  end.

(** [cls()]: the source defines no [__init__] and assigns no instance
    attribute; what the initialiser inherited from lifelines stores is
    none of the names read here, so a new object starts from an empty
    [__dict__]. *)
Definition new (mro : list (gmap string value)) : list (gmap string value) :=
  ∅ :: mro.

Definition as_floats (v : value) : result (list R) :=
  match v with
  | VFloatList l => Ok l
  | _ => Raise TypeError
  end.

(** [d[key]] on a dict with string keys. *)
Definition getitem {V : Type} (d : gmap string V) (key : string) : result V :=
  match d !! key with
  | Some v => Ok v
  | None => Raise (KeyError key)
  end.

(** [l[i]] on a list, with Python's negative indices. *)
Definition index {A : Type} (l : list A) (i : Z) : result A :=
  let n := Z.of_nat (length l) in
  let j := if (i <? 0)%Z then (n + i)%Z else i in
  if ((0 <=? j)%Z && (j <? n)%Z)%bool
  then match l !! Z.to_nat j with
       | Some a => Ok a
       | None => Raise IndexError
       end
  else Raise IndexError.

End Py.

Import Py.

(** ** A fragment of numpy

    A value is a 0-d scalar or a 1-d array.  Binary operators broadcast:
    a scalar against anything, and two arrays when their lengths agree
    or one of them has length 1; any other pair of shapes raises
    [ValueError]. *)

Inductive ndarray : Type :=
  | Sc (r : R)
  | Arr (l : list R).

Module np.

Definition ufunc (f : R -> R) (a : ndarray) : ndarray :=
  match a with
  | Sc r => Sc (f r)
  | Arr l => Arr (map f l)
  end.

Definition broadcast (f : R -> R -> R) (a b : ndarray) : result ndarray :=
  match a, b with
  | Sc x, Sc y => Ok (Sc (f x y))
  | Sc x, Arr l => Ok (Arr (map (f x) l))
  | Arr l, Sc y => Ok (Arr (map (fun x => f x y) l))
  | Arr l, Arr k =>
      if Nat.eqb (length l) (length k) then Ok (Arr (zip_with f l k))
      else match l, k with
           | [x], _ => Ok (Arr (map (f x) k))
           | _, [y] => Ok (Arr (map (fun x => f x y) l))
           | _, _ => Raise ValueError
           end
  end.

Definition add := broadcast Rplus.
Definition sub := broadcast Rminus.
Definition mul := broadcast Rmult.
Definition div := broadcast Rdiv.

(** [a ** n] for a literal natural exponent. *)
Definition pow (a : ndarray) (n : nat) : ndarray := ufunc (fun x => x ^ n) a.

Definition maximum := broadcast Rmax.

Definition exp := ufunc Rtrigo_def.exp.
Definition log := ufunc ln.
Definition log1p := ufunc (fun x => ln (1 + x)).

(** The inner product of two rows. *)
Definition inner (u v : list R) : R :=
  foldr Rplus 0 (zip_with Rmult u v).

(** [np.dot(X, b)] for a 2-d [X] (a list of rows) and a 1-d [b]: one
    inner product per row; raises [ValueError] unless every row is as
    long as [b]. *)
Definition dot (X : list (list R)) (b : list R) : result ndarray :=
  if forallb (fun row => Nat.eqb (length row) (length b)) X
  then Ok (Arr (map (fun row => inner row b) X))
  else Raise ValueError.

End np.

(** ** [class SplineFitter] *)

Module SplineFitter.

(** [np.maximum(0, x)] *)
Definition relu (x : ndarray) : result ndarray :=
  np.maximum (Sc 0) x.

Definition basis (x knot min_knot max_knot : ndarray) : result ndarray :=
  num ← np.sub max_knot knot;
  den ← np.sub max_knot min_knot;
  lambda_ ← np.div num den;
  xk ← np.sub x knot;
  rk ← relu xk;
  xm ← np.sub x min_knot;
  rm ← relu xm;
  t1 ← np.mul lambda_ (np.pow rm 3);
  ol ← np.sub (Sc 1) lambda_;
  xM ← np.sub x max_knot;
  rM ← relu xM;
  t2 ← np.mul ol (np.pow rM 3);
  s ← np.add t1 t2;
  np.sub (np.pow rk 3) s.

Definition _scipy_fit_method : string := "SLSQP".
Definition _scipy_fit_options : gmap string R := {[ "ftol" := 1e-12 ]}.

Definition __dict__ : gmap string value :=
  <[ "_scipy_fit_method" := VStr _scipy_fit_method ]>
  (<[ "_scipy_fit_options" := VDict _scipy_fit_options ]> ∅).

End SplineFitter.

(** ** [class PHSplineFitter(SplineFitter, ParametricRegressionFitter)]

    [ParametricRegressionFitter] belongs to the lifelines library; the
    classes take its method-resolution order (its own [__dict__] first)
    as an argument. *)

Module PHSplineFitter.

Definition _fitted_parameter_names : list string := ["beta_"; "phi1_"; "phi2_"].
Definition _KNOWN_MODEL : bool := true.
Definition KNOTS : list R := [0.1972; 1.769; 6.728].

Definition __dict__ : gmap string value :=
  <[ "_fitted_parameter_names" := VStrList _fitted_parameter_names ]>
  (<[ "_KNOWN_MODEL" := VBool _KNOWN_MODEL ]>
  (<[ "KNOTS" := VFloatList KNOTS ]> ∅)).

Definition mro (ParametricRegressionFitter : list (gmap string value))
  : list (gmap string value) :=
  __dict__ :: SplineFitter.__dict__ :: ParametricRegressionFitter.

Definition _cumulative_hazard (self : list (gmap string value))
    (params : gmap string (list R)) (T : ndarray)
    (Xs : gmap string (list (list R))) : result ndarray :=
  X ← getitem Xs "beta_";
  beta_ ← getitem params "beta_";
  Xbeta ← np.dot X beta_;
  let exp_Xbeta := np.exp Xbeta in
  let lT := np.log T in
  phi1_ ← getitem params "phi1_";
  a ← np.mul (Arr phi1_) lT;
  phi2_ ← getitem params "phi2_";
  K1 ← getattr self "KNOTS" ≫= as_floats;
  k1 ← index K1 1;
  K0 ← getattr self "KNOTS" ≫= as_floats;
  k0 ← index K0 0;
  Kl ← getattr self "KNOTS" ≫= as_floats;
  kl ← index Kl (-1);
  b ← SplineFitter.basis lT (np.log (Sc k1)) (np.log (Sc k0)) (np.log (Sc kl));
  c ← np.mul (Arr phi2_) b;
  s ← np.add a c;
  np.mul exp_Xbeta (np.exp s).

End PHSplineFitter.

(** ** [class POSplineFitter(SplineFitter, ParametricRegressionFitter)] *)

Module POSplineFitter.

Definition _fitted_parameter_names : list string := ["beta_"; "phi1_"; "phi2_"].
Definition _KNOWN_MODEL : bool := true.
Definition KNOTS : list R := [0.1972; 1.769; 6.728].

Definition __dict__ : gmap string value :=
  <[ "_fitted_parameter_names" := VStrList _fitted_parameter_names ]>
  (<[ "_KNOWN_MODEL" := VBool _KNOWN_MODEL ]>
  (<[ "KNOTS" := VFloatList KNOTS ]> ∅)).

Definition mro (ParametricRegressionFitter : list (gmap string value))
  : list (gmap string value) :=
  __dict__ :: SplineFitter.__dict__ :: ParametricRegressionFitter.

Definition _cumulative_hazard (self : list (gmap string value))
    (params : gmap string (list R)) (T : ndarray)
    (Xs : gmap string (list (list R))) : result ndarray :=
  X ← getitem Xs "beta_";
  beta_ ← getitem params "beta_";
  Xbeta ← np.dot X beta_;
  let lT := np.log T in
  phi1_ ← getitem params "phi1_";
  a ← np.mul (Arr phi1_) lT;
  phi2_ ← getitem params "phi2_";
  K1 ← getattr self "KNOTS" ≫= as_floats;
  k1 ← index K1 1;
  K0 ← getattr self "KNOTS" ≫= as_floats;
  k0 ← index K0 0;
  Kl ← getattr self "KNOTS" ≫= as_floats;
  kl ← index Kl (-1);
  b ← SplineFitter.basis lT (np.log (Sc k1)) (np.log (Sc k0)) (np.log (Sc kl));
  c ← np.mul (Arr phi2_) b;
  s ← np.add a c;
  z ← np.add Xbeta s;
  mret (np.log1p (np.exp z)).

End POSplineFitter.

(** ** [class AltWeibullFitter(ParametricRegressionFitter)] *)

Module AltWeibullFitter.

Definition _fitted_parameter_names : list string := ["beta_"; "phi1_"].
Definition _scipy_fit_method : string := "SLSQP".
Definition _KNOWN_MODEL : bool := true.

Definition __dict__ : gmap string value :=
  <[ "_fitted_parameter_names" := VStrList _fitted_parameter_names ]>
  (<[ "_scipy_fit_method" := VStr _scipy_fit_method ]>
  (<[ "_KNOWN_MODEL" := VBool _KNOWN_MODEL ]> ∅)).

Definition mro (ParametricRegressionFitter : list (gmap string value))
  : list (gmap string value) :=
  __dict__ :: ParametricRegressionFitter.

Definition _cumulative_hazard (self : list (gmap string value))
    (params : gmap string (list R)) (T : ndarray)
    (Xs : gmap string (list (list R))) : result ndarray :=
  X ← getitem Xs "beta_";
  beta_ ← getitem params "beta_";
  Xbeta ← np.dot X beta_;
  let exp_Xbeta := np.exp Xbeta in
  let lT := np.log T in
  phi1_ ← getitem params "phi1_";
  a ← np.mul (Arr phi1_) lT;
  np.mul exp_Xbeta (np.exp a).

End AltWeibullFitter.

(** * Vocabulary of the properties *)

(** ** The spline basis as a real function

    [basis_spec] is the formula of the specification:
    relu(x − knot)³ − [λ·relu(x − min_knot)³ + (1 − λ)·relu(x − max_knot)³]
    with λ = (max_knot − knot) / (max_knot − min_knot) and
    relu(z) = max(0, z).  It is compared below with
    [SplineFitter.basis], the translation of the source. *)

Definition relu_spec (z : R) : R := Rmax 0 z.

Definition basis_spec (x knot min_knot max_knot : R) : R :=
  let lam := (max_knot - knot) / (max_knot - min_knot) in
  relu_spec (x - knot) ^ 3
  - (lam * relu_spec (x - min_knot) ^ 3 + (1 - lam) * relu_spec (x - max_knot) ^ 3).

(** The real function [x ↦ basis(x, knot, min_knot, max_knot)] that the
    source computes on scalars. *)
Definition basis_fn (knot min_knot max_knot x : R) : R :=
  match SplineFitter.basis (Sc x) (Sc knot) (Sc min_knot) (Sc max_knot) with
  | Ok (Sc v) => v
  | _ => 0
  end.

(** The first derivative of the basis in [x]. *)
Definition basis_deriv (knot min_knot max_knot x : R) : R :=
  let lam := (max_knot - knot) / (max_knot - min_knot) in
  3 * relu_spec (x - knot) ^ 2
  - (lam * (3 * relu_spec (x - min_knot) ^ 2)
     + (1 - lam) * (3 * relu_spec (x - max_knot) ^ 2)).

(** The shapes lifelines passes: [Xs["beta_"]] has one row per subject,
    each as long as [params["beta_"]]; [T] is a 1-d array with one time
    per subject; [params["phi1_"]] has length 1. *)
Record regression_inputs (params : gmap string (list R))
    (Xs : gmap string (list (list R))) (beta : list R) (phi1 : R)
    (X : list (list R)) (ts : list R) : Prop := {
  in_beta : params !! "beta_" = Some beta;
  in_phi1 : params !! "phi1_" = Some [phi1];
  in_X : Xs !! "beta_" = Some X;
  in_rows : Forall (fun row => length row = length beta) X;
  in_subjects : length ts = length X
}.

(** Strict positivity of a scalar or of every entry of an array.  The
    model of [np.log] agrees with numpy on positive times only. *)
Definition positive (a : ndarray) : Prop :=
  match a with
  | Sc r => 0 < r
  | Arr l => Forall (fun r => 0 < r) l
  end.




(** A subclass of [PHSplineFitter] (or of [POSplineFitter]) whose body
    is [KNOTS = K]. *)
Definition with_KNOTS (K : list R) (mro : list (gmap string value))
  : list (gmap string value) :=
  <[ "KNOTS" := VFloatList K ]> ∅ :: mro.

(** The two defaults in the body of lifelines'
    [ParametricRegressionFitter]. *)
Definition lifelines_defaults : list (gmap string value) :=
  [ <[ "_scipy_fit_method" := VStr "BFGS" ]>
    (<[ "_scipy_fit_options" := VDict ∅ ]> ∅) ].

(** Example inputs: two subjects, two covariates. *)
Definition example_params : gmap string (list R) :=
  <[ "beta_" := [1; 2] ]> (<[ "phi1_" := [0.1] ]> (<[ "phi2_" := [0.5] ]> ∅)).

Definition example_Xs : gmap string (list (list R)) :=
  <[ "beta_" := [[1; 0]; [0; 1]] ]>
  (<[ "phi1_" := [[1]; [1]] ]> (<[ "phi2_" := [[1]; [1]] ]> ∅)).

Definition example_T : list R := [0.1; 2].

(** * The rest of the module *)

(** A pandas [DataFrame]: its column labels and its rows of values. *)
Record DataFrame : Type := {
  columns : list string;
  values : list (list R)
}.

(** The design matrices lifelines hands to [_cumulative_hazard] are the
    values of the frames it hands to [_create_initial_point]. *)
Definition design (Xs : gmap string DataFrame) : gmap string (list (list R)) :=
  values <$> Xs.

(** [np.zeros(n)] *)
Definition np_zeros (n : nat) : list R := replicate n 0.

Module PHSplineFitter_methods.

(** [Ts], [E], [entries] and [weights] are not read. *)
Definition _create_initial_point {A B C D : Type}
    (self : list (gmap string value)) (Ts : A) (E : B) (entries : C)
    (weights : D) (Xs : gmap string DataFrame) : result (gmap string (list R)) :=
  X ← getitem Xs "beta_";
  mret (<[ "beta_" := np_zeros (length (columns X)) ]>
        (<[ "phi1_" := [0.1] ]> (<[ "phi2_" := [0.0] ]> ∅))).

End PHSplineFitter_methods.

(** ** The script below the classes

    The columns of [df] are combined row by row; [lp_row] is one row of
    [df["linear_predictor"]].  The float powers are [Rpower], which
    agrees with [**] on a positive base. *)

Definition lp_row (age grade nodes prog_recp hormone : R) : R :=
  1.79 * Rpower (age / 50) (-2)
  - 8.02 * Rpower (age / 50) (-0.5)
  + 0.5 * (if Rle_dec 2 grade then 1 else 0)
  - 1.98 * exp (-0.12 * nodes)
  - 0.058 * Rpower (prog_recp + 1) 0.5
  - 0.394 * hormone.

(** The second derivative of the basis in [x]. *)
Definition basis_deriv2 (knot min_knot max_knot x : R) : R :=
  let lam := (max_knot - knot) / (max_knot - min_knot) in
  6 * relu_spec (x - knot)
  - (lam * (6 * relu_spec (x - min_knot))
     + (1 - lam) * (6 * relu_spec (x - max_knot))).

(** One subject of a returned array, with its covariate row and time. *)
Definition subject (X : list (list R)) (ts v : list R) (i : nat)
    (row : list R) (t h : R) : Prop :=
  X !! i = Some row /\ ts !! i = Some t /\ v !! i = Some h.

(** * Properties *)

(** ** Evaluation lemmas for the error monad and the numpy fragment *)

Lemma bind_Ok {A B : Type} (a : A) (k : A -> result B) : Ok a ≫= k = k a.
Proof. reflexivity. Qed.

Lemma bind_Ok_inv {A B : Type} (m : result A) (k : A -> result B) (b : B) :
  m ≫= k = Ok b -> exists a, m = Ok a /\ k a = Ok b.
Proof. destruct m as [a|e]; [eauto | discriminate]. Qed.

Lemma zip_with_map_map {A B A' B' C : Type} (f : A' -> B' -> C)
    (g : A -> A') (h : B -> B') (l : list A) (k : list B) :
  zip_with f (map g l) (map h k) = zip_with (fun a b => f (g a) (h b)) l k.
Proof.
  revert k; induction l as [|a l IH]; intros [|b k]; simpl; try done.
  by rewrite IH.
Qed.

Lemma map_zip_with_fun {A B C D : Type} (f : C -> D) (g : A -> B -> C)
    (l : list A) (k : list B) :
  map f (zip_with g l k) = zip_with (fun a b => f (g a b)) l k.
Proof.
  revert k; induction l as [|a l IH]; intros [|b k]; simpl; try done.
  by rewrite IH.
Qed.

Lemma zip_with_diag {A C : Type} (f : A -> A -> C) (l : list A) :
  zip_with f l l = map (fun a => f a a) l.
Proof. induction l as [|a l IH]; simpl; [done | by rewrite IH]. Qed.

Section Broadcast.
Context (f : R -> R -> R).

Lemma broadcast_Sc_Sc (x y : R) :
  np.broadcast f (Sc x) (Sc y) = Ok (Sc (f x y)).
Proof. reflexivity. Qed.

Lemma broadcast_Sc_Arr (x : R) (l : list R) :
  np.broadcast f (Sc x) (Arr l) = Ok (Arr (map (f x) l)).
Proof. reflexivity. Qed.

Lemma broadcast_Arr_Sc (l : list R) (y : R) :
  np.broadcast f (Arr l) (Sc y) = Ok (Arr (map (fun x => f x y) l)).
Proof. reflexivity. Qed.

Lemma broadcast_same_length (l k : list R) :
  length l = length k ->
  np.broadcast f (Arr l) (Arr k) = Ok (Arr (zip_with f l k)).
Proof. intros E. simpl. by rewrite E, Nat.eqb_refl. Qed.

(** Two arrays computed elementwise from the same array. *)
Lemma broadcast_map_map {A : Type} (g h : A -> R) (l : list A) :
  np.broadcast f (Arr (map g l)) (Arr (map h l))
  = Ok (Arr (map (fun x => f (g x) (h x)) l)).
Proof.
  rewrite broadcast_same_length by (by rewrite !length_map).
  by rewrite zip_with_map_map, zip_with_diag.
Qed.

(** A length-1 array against an array of any length. *)
Lemma broadcast_singleton_l (c : R) (k : list R) :
  np.broadcast f (Arr [c]) (Arr k) = Ok (Arr (map (f c) k)).
Proof. destruct k as [|y [|y' k]]; reflexivity. Qed.
End Broadcast.

Lemma ufunc_Sc (f : R -> R) (x : R) : np.ufunc f (Sc x) = Sc (f x).
Proof. reflexivity. Qed.

Lemma ufunc_Arr (f : R -> R) (l : list R) : np.ufunc f (Arr l) = Arr (map f l).
Proof. reflexivity. Qed.

Ltac np_unfold :=
  unfold np.maximum, np.sub, np.div, np.mul, np.add, np.pow, np.exp, np.log,
    np.log1p in *.

Ltac np_step :=
  first
    [ rewrite bind_Ok
    | rewrite broadcast_Sc_Sc
    | rewrite broadcast_Sc_Arr
    | rewrite broadcast_Arr_Sc
    | rewrite broadcast_singleton_l
    | rewrite broadcast_map_map
    | rewrite ufunc_Sc
    | rewrite ufunc_Arr
    | rewrite map_map ];
  cbv beta.

Ltac np_eval := np_unfold; repeat np_step.

(** ** [SplineFitter.basis] computes [basis_spec] *)

Lemma basis_scalar (x knot min_knot max_knot : R) :
  SplineFitter.basis (Sc x) (Sc knot) (Sc min_knot) (Sc max_knot)
  = Ok (Sc (basis_spec x knot min_knot max_knot)).
Proof. reflexivity. Qed.

Lemma basis_array (xs : list R) (knot min_knot max_knot : R) :
  SplineFitter.basis (Arr xs) (Sc knot) (Sc min_knot) (Sc max_knot)
  = Ok (Arr (map (fun x => basis_spec x knot min_knot max_knot) xs)).
Proof.
  unfold SplineFitter.basis, SplineFitter.relu. np_eval. 
  reflexivity.
Qed.

(** C4.  For every real [x] and knots with [min_knot < max_knot] the
    quotient λ is well defined, [basis] returns (it raises nothing) and
    its value is relu(x − knot)³ − [λ·relu(x − min_knot)³ +
    (1 − λ)·relu(x − max_knot)³]; on an array of [x] it returns the array
    of these values, element by element. *)
Theorem basis_formula (x : R) (xs : list R) (knot min_knot max_knot : R) :
  min_knot < max_knot ->
  let lam := (max_knot - knot) / (max_knot - min_knot) in
  let relu z := Rmax 0 z in
  let value x :=
    relu (x - knot) ^ 3
    - (lam * relu (x - min_knot) ^ 3 + (1 - lam) * relu (x - max_knot) ^ 3) in
  lam * (max_knot - min_knot) = max_knot - knot /\
  SplineFitter.basis (Sc x) (Sc knot) (Sc min_knot) (Sc max_knot)
    = Ok (Sc (value x)) /\
  SplineFitter.basis (Arr xs) (Sc knot) (Sc min_knot) (Sc max_knot)
    = Ok (Arr (map value xs)).
Proof.
  intros Hlt lam relu value. split; [|split].
  - unfold lam. field. lra.
  - apply basis_scalar.
  - apply basis_array.
Qed.

Lemma basis_formula_witness :
  SplineFitter.basis (Sc 2) (Sc 1) (Sc 0) (Sc 3) = Ok (Sc (1 - 2 / 3 * 8)).
Proof.
  destruct (basis_formula 2 [] 1 0 3 ltac:(lra)) as (_ & E & _).
  rewrite E. do 2 f_equal.
  rewrite !Rmax_right by lra. rewrite Rmax_left by lra. lra.
Defined.

(** ** The basis outside and at the knots *)

Lemma relu_spec_neg (z : R) : z <= 0 -> relu_spec z = 0.
Proof. intros H. unfold relu_spec. by rewrite Rmax_left. Qed.

Lemma relu_spec_pos (z : R) : 0 <= z -> relu_spec z = z.
Proof. intros H. unfold relu_spec. by rewrite Rmax_right. Qed.

Lemma basis_spec_below (x knot min_knot max_knot : R) :
  min_knot <= knot -> min_knot <= max_knot -> x <= min_knot ->
  basis_spec x knot min_knot max_knot = 0.
Proof.
  intros Hk HM Hx. unfold basis_spec.
  rewrite !relu_spec_neg by lra. ring.
Qed.

Lemma basis_spec_above (x knot min_knot max_knot : R) :
  min_knot < knot -> knot < max_knot -> max_knot <= x ->
  basis_spec x knot min_knot max_knot
  = - (3 * (max_knot - knot) * (knot - min_knot)) * x
    + (max_knot ^ 3 - knot ^ 3
       - (max_knot - knot)
         * (max_knot ^ 2 + max_knot * min_knot + min_knot ^ 2)).
Proof.
  intros Hk HM Hx. unfold basis_spec.
  rewrite !relu_spec_pos by lra. field. lra.
Qed.

(** Between the lowest and the interior knot only the λ-term is left. *)
Lemma basis_spec_lower (x knot min_knot max_knot : R) :
  min_knot <= x -> x <= knot -> knot <= max_knot ->
  basis_spec x knot min_knot max_knot
  = - ((max_knot - knot) / (max_knot - min_knot) * (x - min_knot) ^ 3).
Proof.
  intros Hm Hk HM. unfold basis_spec.
  rewrite (relu_spec_neg (x - knot)), (relu_spec_neg (x - max_knot)) by lra.
  rewrite relu_spec_pos by lra. ring.
Qed.

Lemma published_knots_log_order :
  ln 0.1972 < ln 1.769 /\ ln 1.769 < ln 6.728.
Proof. split; apply ln_increasing; lra. Qed.

Lemma basis_spec_interior_knot_neg :
  basis_spec (ln 1.769) (ln 1.769) (ln 0.1972) (ln 6.728) < 0.
Proof.
  destruct published_knots_log_order as [H1 H2].
  rewrite basis_spec_lower by lra.
  assert (0 < (ln 6.728 - ln 1.769) / (ln 6.728 - ln 0.1972))
    by (apply Rdiv_lt_0_compat; lra).
  assert (0 < (ln 1.769 - ln 0.1972) ^ 3) by (apply pow_lt; lra).
  nra.
Qed.

(** C7, as amended.  At the interior knot of the published knots the
    value of the basis is −λ·(log 1.769 − log 0.1972)³ with
    λ = (log 6.728 − log 1.769) / (log 6.728 − log 0.1972),
    which is strictly negative. *)
Theorem basis_at_interior_knot :
  exists v : R,
    SplineFitter.basis (np.log (Sc 1.769)) (np.log (Sc 1.769))
      (np.log (Sc 0.1972)) (np.log (Sc 6.728)) = Ok (Sc v) /\
    v = - ((ln 6.728 - ln 1.769) / (ln 6.728 - ln 0.1972)
           * (ln 1.769 - ln 0.1972) ^ 3) /\
    v < 0.
Proof.
  destruct published_knots_log_order as [H1 H2].
  eexists. split; [apply basis_scalar|]. split.
  - apply basis_spec_lower; lra.
  - apply basis_spec_interior_knot_neg.
Qed.

(** C7, as stated, fails: the value at the interior knot is not 0. *)
Lemma basis_at_interior_knot_nonzero :
  SplineFitter.basis (np.log (Sc 1.769)) (np.log (Sc 1.769))
    (np.log (Sc 0.1972)) (np.log (Sc 6.728)) <> Ok (Sc 0).
Proof.
  change (np.log (Sc 1.769)) with (Sc (ln 1.769)).
  change (np.log (Sc 0.1972)) with (Sc (ln 0.1972)).
  change (np.log (Sc 6.728)) with (Sc (ln 6.728)).
  rewrite basis_scalar. intros [= E].
  pose proof basis_spec_interior_knot_neg as Hneg. lra.
Qed.

(** ** Evaluating the cumulative hazards *)

Lemma basis_fn_spec (knot min_knot max_knot x : R) :
  basis_fn knot min_knot max_knot x = basis_spec x knot min_knot max_knot.
Proof. reflexivity. Qed.

Lemma dot_rows (X : list (list R)) (b : list R) :
  Forall (fun row => length row = length b) X ->
  np.dot X b = Ok (Arr (map (fun row => np.inner row b) X)).
Proof.
  intros H. unfold np.dot.
  replace (forallb _ X) with true; [done|].
  symmetry. apply forallb_forall. intros row Hin.
  apply Nat.eqb_eq. rewrite Forall_forall in H. apply H.
  by apply list_elem_of_In.
Qed.

Lemma getitem_Some {V : Type} (d : gmap string V) (key : string) (v : V) :
  d !! key = Some v -> getitem d key = Ok v.
Proof. intros E. unfold getitem. by rewrite E. Qed.

Lemma as_floats_list (l : list R) : as_floats (VFloatList l) = Ok l.
Proof. reflexivity. Qed.

Section Evaluation.
Context (self : list (gmap string value)) (K : list R) (k0 k1 kl : R).
Context (params : gmap string (list R)) (Xs : gmap string (list (list R))).
Context (beta : list R) (phi1 : R) (X : list (list R)) (ts : list R).

Hypothesis self_KNOTS : getattr self "KNOTS" = Ok (VFloatList K).
Hypothesis K_0 : index K 0 = Ok k0.
Hypothesis K_1 : index K 1 = Ok k1.
Hypothesis K_last : index K (-1) = Ok kl.
Hypothesis params_beta : params !! "beta_" = Some beta.
Hypothesis params_phi1 : params !! "phi1_" = Some [phi1].
Hypothesis Xs_beta : Xs !! "beta_" = Some X.
Hypothesis rows : Forall (fun row => length row = length beta) X.
Hypothesis subjects : length ts = length X.

Ltac knots_step :=
  first [ rewrite self_KNOTS | rewrite as_floats_list
        | rewrite K_0 | rewrite K_1 | rewrite K_last ].

Lemma AltWeibull_eval (self' : list (gmap string value)) :
  AltWeibullFitter._cumulative_hazard self' params (Arr ts) Xs
  = Ok (Arr (zip_with
               (fun row t => exp (np.inner row beta) * exp (phi1 * ln t))
               X ts)).
Proof.
  unfold AltWeibullFitter._cumulative_hazard.
  rewrite (getitem_Some _ _ _ Xs_beta), (getitem_Some _ _ _ params_beta),
    (getitem_Some _ _ _ params_phi1).
  cbv zeta. rewrite !bind_Ok, dot_rows by done. np_eval.
  rewrite broadcast_same_length by (by rewrite !length_map).
  by rewrite zip_with_map_map.
Qed.

Context (phi2 : R).
Hypothesis params_phi2 : params !! "phi2_" = Some [phi2].

Lemma PHSpline_eval :
  PHSplineFitter._cumulative_hazard self params (Arr ts) Xs
  = Ok (Arr (zip_with
               (fun row t =>
                  exp (np.inner row beta)
                  * exp (phi1 * ln t
                         + phi2 * basis_spec (ln t) (ln k1) (ln k0) (ln kl)))
               X ts)).
Proof.
  unfold PHSplineFitter._cumulative_hazard.
  rewrite (getitem_Some _ _ _ Xs_beta), (getitem_Some _ _ _ params_beta),
    (getitem_Some _ _ _ params_phi1), (getitem_Some _ _ _ params_phi2).
  cbv zeta. rewrite !bind_Ok, dot_rows by done.
  np_unfold. repeat first [np_step | knots_step | rewrite basis_array].
  rewrite broadcast_same_length by (by rewrite !length_map).
  by rewrite zip_with_map_map.
Qed.

Lemma POSpline_eval :
  POSplineFitter._cumulative_hazard self params (Arr ts) Xs
  = Ok (Arr (zip_with
               (fun row t =>
                  ln (1 + exp (np.inner row beta
                               + (phi1 * ln t
                                  + phi2 * basis_spec (ln t) (ln k1) (ln k0) (ln kl)))))
               X ts)).
Proof.
  unfold POSplineFitter._cumulative_hazard.
  rewrite (getitem_Some _ _ _ Xs_beta), (getitem_Some _ _ _ params_beta),
    (getitem_Some _ _ _ params_phi1), (getitem_Some _ _ _ params_phi2).
  cbv zeta. rewrite !bind_Ok, dot_rows by done.
  np_unfold. repeat first [np_step | knots_step | rewrite basis_array].
  rewrite broadcast_same_length by (by rewrite !length_map).
  rewrite zip_with_map_map, bind_Ok. unfold mret, result_ret.
  by rewrite !ufunc_Arr, !map_zip_with_fun.
Qed.
End Evaluation.

Lemma PHSpline_KNOTS (base : list (gmap string value)) :
  getattr (new (PHSplineFitter.mro base)) "KNOTS"
  = Ok (VFloatList [0.1972; 1.769; 6.728]).
Proof. reflexivity. Qed.

Lemma POSpline_KNOTS (base : list (gmap string value)) :
  getattr (new (POSplineFitter.mro base)) "KNOTS"
  = Ok (VFloatList [0.1972; 1.769; 6.728]).
Proof. reflexivity. Qed.

Lemma published_knots_index :
  index [0.1972; 1.769; 6.728] 0 = Ok 0.1972 /\
  index [0.1972; 1.769; 6.728] 1 = Ok 1.769 /\
  index [0.1972; 1.769; 6.728] (-1) = Ok 6.728.
Proof. repeat split. Qed.

Lemma PHSpline_published (base : list (gmap string value))
    (params : gmap string (list R)) (Xs : gmap string (list (list R)))
    (beta : list R) (phi1 phi2 : R) (X : list (list R)) (ts : list R) :
  regression_inputs params Xs beta phi1 X ts ->
  params !! "phi2_" = Some [phi2] ->
  PHSplineFitter._cumulative_hazard (new (PHSplineFitter.mro base)) params (Arr ts) Xs
  = Ok (Arr (zip_with
               (fun row t =>
                  exp (np.inner row beta)
                  * exp (phi1 * ln t
                         + phi2 * basis_spec (ln t) (ln 1.769) (ln 0.1972) (ln 6.728)))
               X ts)).
Proof.
  intros [] Hphi2. destruct published_knots_index as (I0 & I1 & Il).
  by eapply PHSpline_eval; first apply PHSpline_KNOTS.
Qed.

Lemma POSpline_published (base : list (gmap string value))
    (params : gmap string (list R)) (Xs : gmap string (list (list R)))
    (beta : list R) (phi1 phi2 : R) (X : list (list R)) (ts : list R) :
  regression_inputs params Xs beta phi1 X ts ->
  params !! "phi2_" = Some [phi2] ->
  POSplineFitter._cumulative_hazard (new (POSplineFitter.mro base)) params (Arr ts) Xs
  = Ok (Arr (zip_with
               (fun row t =>
                  ln (1 + exp (np.inner row beta
                               + (phi1 * ln t
                                  + phi2 * basis_spec (ln t) (ln 1.769) (ln 0.1972)
                                             (ln 6.728)))))
               X ts)).
Proof.
  intros [] Hphi2. destruct published_knots_index as (I0 & I1 & Il).
  by eapply POSpline_eval; first apply POSpline_KNOTS.
Qed.

(** C2.  On positive times, the PH-spline cumulative hazard of each
    subject is exp(X·beta_) · exp(phi1_·log T + phi2_·basis(log T,
    log 1.769, log 0.1972, log 6.728)): the basis is taken at the
    logarithms of the published knots 0.1972, 1.769, 6.728. *)
Theorem PHSpline_cumulative_hazard_formula (base : list (gmap string value))
    (params : gmap string (list R)) (Xs : gmap string (list (list R)))
    (beta : list R) (phi1 phi2 : R) (X : list (list R)) (ts : list R) :
  regression_inputs params Xs beta phi1 X ts ->
  params !! "phi2_" = Some [phi2] ->
  positive (Arr ts) ->
  PHSplineFitter._cumulative_hazard (new (PHSplineFitter.mro base)) params (Arr ts) Xs
  = Ok (Arr (zip_with
               (fun row t =>
                  exp (np.inner row beta)
                  * exp (phi1 * ln t
                         + phi2 * basis_fn (ln 1.769) (ln 0.1972) (ln 6.728) (ln t)))
               X ts)).
Proof. intros Hin Hphi2 _. by apply PHSpline_published. Qed.

(** C3.  On positive times, the PO-spline cumulative hazard of each
    subject is log(1 + exp(X·beta_ + phi1_·log T + phi2_·basis_term)),
    with the basis term and the knots of the PH-spline variant: the link
    is log1p∘exp where the PH-spline variant has exp. *)
Theorem POSpline_cumulative_hazard_formula (base : list (gmap string value))
    (params : gmap string (list R)) (Xs : gmap string (list (list R)))
    (beta : list R) (phi1 phi2 : R) (X : list (list R)) (ts : list R) :
  regression_inputs params Xs beta phi1 X ts ->
  params !! "phi2_" = Some [phi2] ->
  positive (Arr ts) ->
  let eta row t :=
    np.inner row beta
    + phi1 * ln t
    + phi2 * basis_fn (ln 1.769) (ln 0.1972) (ln 6.728) (ln t) in
  POSplineFitter._cumulative_hazard (new (POSplineFitter.mro base)) params (Arr ts) Xs
    = Ok (Arr (zip_with (fun row t => ln (1 + exp (eta row t))) X ts)) /\
  PHSplineFitter._cumulative_hazard (new (PHSplineFitter.mro base)) params (Arr ts) Xs
    = Ok (Arr (zip_with (fun row t => exp (eta row t)) X ts)).
Proof.
  intros Hin Hphi2 _ eta. split.
  - rewrite (POSpline_published _ _ _ _ _ _ _ _ Hin Hphi2).
    do 2 f_equal. apply zip_with_ext; try done.
    intros row t. unfold eta. by rewrite basis_fn_spec, Rplus_assoc.
  - rewrite (PHSpline_published _ _ _ _ _ _ _ _ Hin Hphi2).
    do 2 f_equal. apply zip_with_ext; try done.
    intros row t. unfold eta.
    by rewrite basis_fn_spec, <- exp_plus, Rplus_assoc.
Qed.

(** ** The error paths of the model *)

Example inner_example : np.inner [1; 2] [3; 4] = 11.
Proof. unfold np.inner. simpl. lra. Qed.

Example index_examples :
  index [0.1972; 1.769; 6.728] (-3) = Ok 0.1972 /\
  index [0.1972; 1.769; 6.728] 3 = Raise IndexError /\
  index [0.1972; 1.769; 6.728] (-4) = Raise IndexError.
Proof. repeat split. Qed.

Example broadcast_mismatch :
  np.add (Arr [1; 2]) (Arr [1; 2; 3]) = Raise ValueError.
Proof. reflexivity. Qed.

Example PHSpline_missing_phi2 :
  PHSplineFitter._cumulative_hazard (new (PHSplineFitter.mro lifelines_defaults))
    (delete "phi2_" example_params) (Arr example_T) example_Xs
  = Raise (KeyError "phi2_").
Proof. reflexivity. Qed.

Example AltWeibull_wrong_number_of_times :
  AltWeibullFitter._cumulative_hazard (new (AltWeibullFitter.mro lifelines_defaults))
    example_params (Arr [1; 2; 3]) example_Xs
  = Raise ValueError.
Proof. reflexivity. Qed.

(** ** Positivity and the underflow of [np.exp] *)
















(** ** The Weibull baseline inside the PH-spline model *)

Lemma regression_inputs_insert_phi2 (params : gmap string (list R))
    (Xs : gmap string (list (list R))) (beta : list R) (phi1 : R)
    (X : list (list R)) (ts : list R) (v : list R) :
  regression_inputs params Xs beta phi1 X ts ->
  regression_inputs (<["phi2_" := v]> params) Xs beta phi1 X ts.
Proof.
  intros []. split; try done; by rewrite lookup_insert_ne.
Qed.

Lemma exp_affine_continuous (A B C eps : R) :
  0 < eps ->
  exists delta, 0 < delta /\
    forall p, Rabs p < delta -> Rabs (A * exp (B + p * C) - A * exp B) < eps.
Proof.
  intros Heps.
  assert (Hc : continuity_pt (fun p => A * exp (B + p * C)) 0)
    by (apply derivable_continuous_pt; reg).
  destruct (Hc eps Heps) as (alp & Halp & Hlim).
  exists alp. split; [lra|]. intros p Hp.
  destruct (Req_dec p 0) as [-> | Hne].
  - replace (A * exp (B + 0 * C) - A * exp B) with 0; [by rewrite Rabs_R0|].
    rewrite Rmult_0_l, Rplus_0_r. ring.
  - specialize (Hlim p). simpl in Hlim. unfold R_dist in Hlim.
    rewrite Rmult_0_l, Rplus_0_r, Rminus_0_r in Hlim.
    apply Hlim. repeat split; auto.
Qed.

Lemma hazards_close (beta : list R) (phi1 : R) (c : R -> R)
    (X : list (list R)) (ts : list R) (eps : R) :
  0 < eps ->
  exists delta, 0 < delta /\
    forall p, Rabs p < delta ->
      Forall2 (fun a b => Rabs (a - b) < eps)
        (zip_with (fun row t =>
                     exp (np.inner row beta) * exp (phi1 * ln t + p * c t)) X ts)
        (zip_with (fun row t =>
                     exp (np.inner row beta) * exp (phi1 * ln t)) X ts).
Proof.
  intros Heps. revert ts. induction X as [|row X IH]; intros ts.
  - exists 1. split; [lra|]. intros p _. constructor.
  - destruct ts as [|t ts].
    + exists 1. split; [lra|]. intros p _. constructor.
    + destruct (IH ts) as (d1 & Hd1 & H1).
      destruct (exp_affine_continuous (exp (np.inner row beta)) (phi1 * ln t)
                  (c t) eps Heps) as (d2 & Hd2 & H2).
      exists (Rmin d1 d2). split; [by apply Rmin_glb_lt|].
      intros p Hp. simpl. constructor.
      * apply H2. eapply Rlt_le_trans; [exact Hp | apply Rmin_r].
      * apply H1. eapply Rlt_le_trans; [exact Hp | apply Rmin_l].
Qed.

(** C6.  On positive times, the PH-spline cumulative hazard with
    [phi2_ = 0] is the Alt-Weibull cumulative hazard with the same
    [beta_] and [phi1_], and the PH-spline value tends to it as [phi2_]
    tends to 0: for every tolerance there is a bound on |phi2_| below
    which every subject's two values differ by less than the
    tolerance. *)
Theorem PHSpline_at_phi2_zero_is_AltWeibull (base : list (gmap string value))
    (params : gmap string (list R)) (Xs : gmap string (list (list R)))
    (beta : list R) (phi1 : R) (X : list (list R)) (ts : list R) :
  regression_inputs params Xs beta phi1 X ts ->
  positive (Arr ts) ->
  let PH phi2 :=
    PHSplineFitter._cumulative_hazard (new (PHSplineFitter.mro base))
      (<["phi2_" := [phi2]]> params) (Arr ts) Xs in
  let AW :=
    AltWeibullFitter._cumulative_hazard (new (AltWeibullFitter.mro base))
      params (Arr ts) Xs in
  exists w,
    AW = Ok (Arr w) /\ PH 0 = Ok (Arr w) /\
    forall eps, 0 < eps ->
      exists delta, 0 < delta /\
        forall phi2, Rabs phi2 < delta ->
          exists v, PH phi2 = Ok (Arr v) /\
                    Forall2 (fun a b => Rabs (a - b) < eps) v w.
Proof.
  intros Hin _ PH AW.
  assert (EPH : forall phi2, PH phi2 = _) by
    (intros phi2; apply (PHSpline_published base _ _ beta phi1 phi2 X ts);
     [by apply regression_inputs_insert_phi2 | by rewrite lookup_insert_eq]).
  destruct Hin.
  eexists. split; [| split].
  - by eapply AltWeibull_eval.
  - rewrite EPH. do 2 f_equal. apply zip_with_ext; try done.
    intros row t. by rewrite Rmult_0_l, Rplus_0_r.
  - intros eps Heps.
    destruct (hazards_close beta phi1
                (fun t => basis_spec (ln t) (ln 1.769) (ln 0.1972) (ln 6.728))
                X ts eps Heps) as (delta & Hdelta & Hclose).
    exists delta. split; [done|]. intros phi2 Hphi2.
    eexists. split; [apply EPH|]. by apply Hclose.
Qed.

(** ** Smoothness of the basis

    relu(z)ⁿ is differentiable for n ≥ 2, with derivative
    n·relu(z)ⁿ⁻¹; the basis inherits a continuous first derivative. *)

Lemma pow_le_self (h : R) (n : nat) : 0 <= h -> h <= 1 -> h ^ S n <= h.
Proof.
  intros H0 H1. simpl.
  assert (0 <= h ^ n <= 1) as [? ?].
  { split; [apply pow_le; lra|]. rewrite <- (pow1 n). apply pow_incr. lra. }
  nra.
Qed.

Lemma relu_pow_deriv (n : nat) (z : R) :
  derivable_pt_lim (fun z => Rmax 0 z ^ S (S n)) z
    (INR (S (S n)) * Rmax 0 z ^ S n).
Proof.
  destruct (Rtotal_order z 0) as [Hneg | [-> | Hpos]].
  - (* left of the kink the function is constantly 0 *)
    intros eps Heps.
    assert (Hd : 0 < - z) by lra.
    exists (mkposreal (- z) Hd). intros h _ Hh. simpl in Hh.
    assert (z + h < 0) by (revert Hh; unfold Rabs; destruct (Rcase_abs h); lra).
    rewrite !Rmax_left by lra.
    rewrite !pow_i by lia.
    replace ((0 - 0) / h - INR (S (S n)) * 0) with 0 by (unfold Rdiv; ring).
    rewrite Rabs_R0. exact Heps.
  - (* at the kink the difference quotient is 0 or h^(n+1) *)
    intros eps Heps.
    assert (Hd : 0 < Rmin 1 eps) by (apply Rmin_glb_lt; lra).
    exists (mkposreal _ Hd). intros h Hh0 Hh. simpl in Hh.
    rewrite Rplus_0_l.
    rewrite (Rmax_left 0 0) by lra.
    rewrite !(pow_i (S n)) by lia. rewrite (pow_i (S (S n))) by lia.
    assert (Hh1 : Rabs h < 1) by (eapply Rlt_le_trans; [exact Hh | apply Rmin_l]).
    assert (Hh2 : Rabs h < eps) by (eapply Rlt_le_trans; [exact Hh | apply Rmin_r]).
    destruct (Rle_or_lt h 0) as [Hle | Hgt].
    + rewrite Rmax_left by lra. rewrite pow_i by lia.
      replace ((0 - 0) / h - INR (S (S n)) * 0) with 0 by (unfold Rdiv; ring).
      rewrite Rabs_R0. exact Heps.
    + rewrite Rmax_right by lra.
      rewrite Rabs_right in Hh1, Hh2 by lra.
      replace ((h ^ S (S n) - 0) / h - INR (S (S n)) * 0) with (h ^ S n)
        by (simpl; field; lra).
      rewrite Rabs_right by (apply Rle_ge, pow_le; lra).
      apply Rle_lt_trans with h; [| exact Hh2].
      apply pow_le_self; lra.
  - (* right of the kink the function is the power itself *)
    intros eps Heps.
    destruct (derivable_pt_lim_pow z (S (S n)) eps Heps) as [d Hd].
    assert (Hm : 0 < Rmin d z) by (apply Rmin_glb_lt; [apply cond_pos | lra]).
    exists (mkposreal _ Hm). intros h Hh0 Hh. simpl in Hh.
    assert (Hh1 : Rabs h < d) by (eapply Rlt_le_trans; [exact Hh | apply Rmin_l]).
    assert (Hh2 : Rabs h < z) by (eapply Rlt_le_trans; [exact Hh | apply Rmin_r]).
    assert (0 < z + h) by (revert Hh2; unfold Rabs; destruct (Rcase_abs h); lra).
    rewrite !Rmax_right by lra.
    exact (Hd h Hh0 Hh1).
Qed.

Lemma relu_pow_shift_deriv (n : nat) (c x : R) :
  derivable_pt_lim (fun x => Rmax 0 (x - c) ^ S (S n)) x
    (INR (S (S n)) * Rmax 0 (x - c) ^ S n).
Proof.
  intros eps Heps.
  destruct (relu_pow_deriv n (x - c) eps Heps) as [d Hd].
  exists d. intros h Hh0 Hh.
  replace (x + h - c) with (x - c + h) by ring. by apply Hd.
Qed.

Lemma relu_pow_shift_continuous (n : nat) (c x : R) :
  continuity_pt (fun x => Rmax 0 (x - c) ^ S (S n)) x.
Proof.
  apply derivable_continuous_pt.
  eexists. apply relu_pow_shift_deriv.
Qed.

Lemma basis_fn_derivable (knot min_knot max_knot x : R) :
  derivable_pt_lim (basis_fn knot min_knot max_knot) x
    (basis_deriv knot min_knot max_knot x).
Proof.
  set (lam := (max_knot - knot) / (max_knot - min_knot)).
  pose (r c := fun x : R => Rmax 0 (x - c) ^ 3).
  change (basis_fn knot min_knot max_knot)
    with (r knot - (mult_real_fct lam (r min_knot)
                    + mult_real_fct (1 - lam) (r max_knot)))%F.
  replace (basis_deriv knot min_knot max_knot x)
    with (INR 3 * Rmax 0 (x - knot) ^ 2
          - (lam * (INR 3 * Rmax 0 (x - min_knot) ^ 2)
             + (1 - lam) * (INR 3 * Rmax 0 (x - max_knot) ^ 2)))
    by (unfold basis_deriv, relu_spec; fold lam; simpl INR; ring).
  apply derivable_pt_lim_minus; [apply (relu_pow_shift_deriv 1)|].
  apply derivable_pt_lim_plus;
    apply derivable_pt_lim_scal, (relu_pow_shift_deriv 1).
Qed.

Lemma basis_deriv_continuous (knot min_knot max_knot x : R) :
  continuity_pt (basis_deriv knot min_knot max_knot) x.
Proof.
  set (lam := (max_knot - knot) / (max_knot - min_knot)).
  pose (q c := fun x : R => Rmax 0 (x - c) ^ 2).
  change (basis_deriv knot min_knot max_knot)
    with (mult_real_fct 3 (q knot)
          - (mult_real_fct lam (mult_real_fct 3 (q min_knot))
             + mult_real_fct (1 - lam) (mult_real_fct 3 (q max_knot))))%F.
  apply continuity_pt_minus; [apply continuity_pt_scal, (relu_pow_shift_continuous 0)|].
  apply continuity_pt_plus;
    do 2 apply continuity_pt_scal; apply (relu_pow_shift_continuous 0).
Qed.

(** C5.  With [min_knot < knot < max_knot] the basis is affine in [x]
    on each side of the boundary knots: it is the zero function on
    [x <= min_knot] and a line of slope −3(max_knot − knot)(knot −
    min_knot) on [x >= max_knot].  Its value is continuous and it has a
    continuous first derivative at every [x], whose values at the two
    boundary knots are the slopes of the two lines. *)
Theorem basis_linear_beyond_boundary_knots (knot min_knot max_knot : R) :
  min_knot < knot -> knot < max_knot ->
  let slope := - (3 * (max_knot - knot) * (knot - min_knot)) in
  let intercept :=
    max_knot ^ 3 - knot ^ 3
    - (max_knot - knot) * (max_knot ^ 2 + max_knot * min_knot + min_knot ^ 2) in
  (forall x, x <= min_knot ->
     SplineFitter.basis (Sc x) (Sc knot) (Sc min_knot) (Sc max_knot)
     = Ok (Sc (0 * x + 0))) /\
  (forall x, max_knot <= x ->
     SplineFitter.basis (Sc x) (Sc knot) (Sc min_knot) (Sc max_knot)
     = Ok (Sc (slope * x + intercept))) /\
  (forall x, continuity_pt (basis_fn knot min_knot max_knot) x) /\
  (forall x, derivable_pt_lim (basis_fn knot min_knot max_knot) x
               (basis_deriv knot min_knot max_knot x)) /\
  (forall x, continuity_pt (basis_deriv knot min_knot max_knot) x) /\
  basis_deriv knot min_knot max_knot min_knot = 0 /\
  basis_deriv knot min_knot max_knot max_knot = slope.
Proof.
  intros Hk HM slope intercept. repeat split.
  - intros x Hx. rewrite basis_scalar, basis_spec_below by lra.
    do 2 f_equal. ring.
  - intros x Hx. rewrite basis_scalar, basis_spec_above by lra. done.
  - intros x. apply derivable_continuous_pt.
    eexists. apply basis_fn_derivable.
  - intros x. apply basis_fn_derivable.
  - intros x. apply basis_deriv_continuous.
  - unfold basis_deriv. rewrite !relu_spec_neg by lra. ring.
  - unfold basis_deriv, slope. rewrite !relu_spec_pos by lra. field. lra.
Qed.

(** ** Times at or below the lowest knot *)

Lemma zip_with_ext_r {A B C : Type} (P : B -> Prop) (f g : A -> B -> C)
    (l : list A) (k : list B) :
  (forall a b, P b -> f a b = g a b) -> Forall P k ->
  zip_with f l k = zip_with g l k.
Proof.
  intros Hfg Hk. revert l. induction Hk as [|b k Hb Hk IH]; intros [|a l]; simpl;
    try done.
  by rewrite Hfg, IH.
Qed.

(** C10.  With [min_knot < knot < max_knot], the basis is exactly 0 at
    every [x <= min_knot], for a scalar and for an array of such [x].
    Hence for times in (0, 0.1972] the spline term drops out of the
    PH-spline cumulative hazard, which is then exp(X·beta_) ·
    exp(phi1_·log T) whatever [phi2_] is. *)
Theorem basis_zero_below_min_knot (knot min_knot max_knot : R) :
  min_knot < knot -> knot < max_knot ->
  (forall x, x <= min_knot ->
     SplineFitter.basis (Sc x) (Sc knot) (Sc min_knot) (Sc max_knot) = Ok (Sc 0)) /\
  (forall xs, Forall (fun x => x <= min_knot) xs ->
     SplineFitter.basis (Arr xs) (Sc knot) (Sc min_knot) (Sc max_knot)
     = Ok (Arr (map (fun _ => 0) xs))) /\
  (forall base params Xs beta phi1 phi2 X ts,
     regression_inputs params Xs beta phi1 X ts ->
     params !! "phi2_" = Some [phi2] ->
     Forall (fun t => 0 < t <= 0.1972) ts ->
     PHSplineFitter._cumulative_hazard (new (PHSplineFitter.mro base))
       params (Arr ts) Xs
     = Ok (Arr (zip_with
                  (fun row t => exp (np.inner row beta) * exp (phi1 * ln t))
                  X ts))).
Proof.
  intros Hk HM. split; [|split].
  - intros x Hx. rewrite basis_scalar, basis_spec_below by lra. done.
  - intros xs Hxs. rewrite basis_array. do 2 f_equal.
    induction Hxs as [|y ys Hy _ IH]; simpl; [done|].
    rewrite IH, basis_spec_below by lra. done.
  - intros base params Xs beta phi1 phi2 X ts Hin Hphi2 Hts.
    rewrite (PHSpline_published _ _ _ _ _ _ _ _ Hin Hphi2).
    do 2 f_equal. apply (zip_with_ext_r (fun t => 0 < t <= 0.1972)); [|done].
    intros row t [Ht0 Ht1].
    destruct published_knots_log_order as [H1 H2].
    assert (ln t <= ln 0.1972).
    { destruct Ht1 as [Ht1 | ->]; [left; by apply ln_increasing | right; done]. }
    rewrite basis_spec_below by lra.
    by rewrite Rmult_0_r, Rplus_0_r.
Qed.

(** ** Knots are class constants *)

Lemma getattr_here (d : gmap string value) (o : list (gmap string value))
    (name : string) (v : value) :
  d !! name = Some v -> getattr (d :: o) name = Ok v.
Proof.
  intros E. unfold getattr. simpl.
  rewrite decide_True by (by rewrite E). by rewrite E.
Qed.

Lemma getattr_next (d : gmap string value) (o : list (gmap string value))
    (name : string) :
  d !! name = None -> getattr (d :: o) name = getattr o name.
Proof.
  intros E. unfold getattr. simpl.
  rewrite decide_False by (rewrite E; by intros [? ?]).
  by destruct (list_find _ o) as [[i d']|].
Qed.

Lemma index_lookup {A : Type} (l : list A) (i j : Z) (a : A) :
  j = (if (i <? 0)%Z then Z.of_nat (length l) + i else i)%Z ->
  (0 <= j)%Z ->
  l !! Z.to_nat j = Some a ->
  index l i = Ok a.
Proof.
  intros -> Hj Hl. unfold index. cbv zeta.
  pose proof (lookup_lt_Some _ _ _ Hl) as Hlt.
  rewrite Hl.
  replace (_ && _)%bool with true; [done|].
  symmetry. apply andb_true_iff. split; [apply Z.leb_le | apply Z.ltb_lt]; lia.
Qed.

Lemma index_first_second_last (K : list R) :
  (2 <= length K)%nat ->
  exists k0 k1 kl, index K 0 = Ok k0 /\ index K 1 = Ok k1 /\ index K (-1) = Ok kl.
Proof.
  intros Hlen.
  destruct (lookup_lt_is_Some_2 K 0) as [k0 Hk0]; [lia|].
  destruct (lookup_lt_is_Some_2 K 1) as [k1 Hk1]; [lia|].
  destruct (lookup_lt_is_Some_2 K (length K - 1)) as [kl Hkl]; [lia|].
  exists k0, k1, kl. repeat split.
  - by apply (index_lookup K 0 0).
  - by apply (index_lookup K 1 1).
  - apply (index_lookup K (-1) (Z.of_nat (length K) - 1)); [done | lia |].
    by replace (Z.to_nat (Z.of_nat (length K) - 1)) with (length K - 1)%nat by lia.
Qed.

(** C8, as amended.  The source validates no knots.  The knots of both
    spline variants are the class constant [0.1972, 1.769, 6.728], which
    is positive and increasing; with any other list of at least two
    knots in its place, valid or not, constructing the model and
    evaluating it on inputs of the right shapes returns a value and
    raises nothing. *)
Theorem knots_constant_and_unchecked (base : list (gmap string value))
    (K : list R) (params : gmap string (list R))
    (Xs : gmap string (list (list R)))
    (beta : list R) (phi1 phi2 : R) (X : list (list R)) (ts : list R) :
  (2 <= length K)%nat ->
  regression_inputs params Xs beta phi1 X ts ->
  params !! "phi2_" = Some [phi2] ->
  (getattr (new (PHSplineFitter.mro base)) "KNOTS" ≫= as_floats
     = Ok [0.1972; 1.769; 6.728] /\
   getattr (new (POSplineFitter.mro base)) "KNOTS" ≫= as_floats
     = Ok [0.1972; 1.769; 6.728] /\
   0 < 0.1972 < 1.769 /\ 1.769 < 6.728) /\
  (exists v w,
     PHSplineFitter._cumulative_hazard
       (new (with_KNOTS K (PHSplineFitter.mro base))) params (Arr ts) Xs
       = Ok (Arr v) /\
     POSplineFitter._cumulative_hazard
       (new (with_KNOTS K (POSplineFitter.mro base))) params (Arr ts) Xs
       = Ok (Arr w)).
Proof.
  intros HK [] Hphi2. split.
  - repeat split; lra.
  - destruct (index_first_second_last K HK) as (k0 & k1 & kl & I0 & I1 & Il).
    do 2 eexists. split.
    + by eapply (PHSpline_eval _ K k0 k1 kl).
    + by eapply (POSpline_eval _ K k0 k1 kl).
Qed.

(** ** The example inputs are well shaped *)

Lemma example_inputs :
  regression_inputs example_params example_Xs [1; 2] 0.1 [[1; 0]; [0; 1]] example_T.
Proof. split; try reflexivity. repeat constructor. Qed.

Lemma example_T_positive : positive (Arr example_T).
Proof. repeat constructor; lra. Qed.

(** C8, as stated, fails: a model whose knots are 2, 1, 3 (the lowest
    above the interior one) is constructed and evaluated without any
    error. *)
Lemma invalid_knots_not_rejected :
  ~ (2 < 1) /\
  exists v,
    PHSplineFitter._cumulative_hazard
      (new (with_KNOTS [2; 1; 3] (PHSplineFitter.mro []))) example_params
      (Arr example_T) example_Xs
    = Ok (Arr v).
Proof.
  split; [lra|]. eexists.
  eapply (PHSpline_eval _ [2; 1; 3] 2 1 3); try reflexivity.
  repeat constructor.
Qed.

(** ** Optimiser configuration

    lifelines reads [self._scipy_fit_method] and
    [self._scipy_fit_options] when it fits a model. *)

(** C9, as amended.  The PH-spline and PO-spline variants select the
    SLSQP solver with [ftol = 1e-12], both inherited from
    [SplineFitter].  The Alt-Weibull variant selects SLSQP too, but its
    class body sets no options: it has the options of its base class,
    whatever they are. *)
Theorem fit_configuration (base : list (gmap string value)) :
  let PH := new (PHSplineFitter.mro base) in
  let PO := new (POSplineFitter.mro base) in
  let AW := new (AltWeibullFitter.mro base) in
  (getattr PH "_scipy_fit_method" = Ok (VStr "SLSQP") /\
   getattr PH "_scipy_fit_options" = Ok (VDict {[ "ftol" := 1e-12 ]})) /\
  (getattr PO "_scipy_fit_method" = Ok (VStr "SLSQP") /\
   getattr PO "_scipy_fit_options" = Ok (VDict {[ "ftol" := 1e-12 ]})) /\
  (getattr AW "_scipy_fit_method" = Ok (VStr "SLSQP") /\
   AltWeibullFitter.__dict__ !! "_scipy_fit_options" = None /\
   getattr AW "_scipy_fit_options" = getattr base "_scipy_fit_options").
Proof.
  intros PH PO AW. split; [|split]; try (split; reflexivity).
  split; [reflexivity|]. split; [reflexivity|].
  unfold AW, new, AltWeibullFitter.mro. by rewrite !getattr_next.
Qed.

(** C9, as stated, fails for the Alt-Weibull variant: over the lifelines
    defaults its options are empty, with no tolerance in them. *)
Lemma AltWeibull_tolerance_not_configured :
  getattr (new (AltWeibullFitter.mro lifelines_defaults)) "_scipy_fit_options"
  <> Ok (VDict {[ "ftol" := 1e-12 ]}).
Proof.
  change (getattr _ _) with (@Ok value (VDict ∅)).
  intros E.
  apply (f_equal (fun r => match r with
                           | Ok (VDict d) => d !! "ftol"
                           | _ => None
                           end)) in E.
  discriminate E.
Qed.

(** ** The theorems at the example inputs *)


Lemma PHSpline_cumulative_hazard_formula_witness :
  PHSplineFitter._cumulative_hazard (new (PHSplineFitter.mro lifelines_defaults))
    example_params (Arr example_T) example_Xs
  = Ok (Arr [ exp (np.inner [1; 0] [1; 2])
              * exp (0.1 * ln 0.1
                     + 0.5 * basis_fn (ln 1.769) (ln 0.1972) (ln 6.728) (ln 0.1));
              exp (np.inner [0; 1] [1; 2])
              * exp (0.1 * ln 2
                     + 0.5 * basis_fn (ln 1.769) (ln 0.1972) (ln 6.728) (ln 2)) ]).
Proof.
  exact (PHSpline_cumulative_hazard_formula lifelines_defaults example_params
           example_Xs [1; 2] 0.1 0.5 [[1; 0]; [0; 1]] example_T
           example_inputs eq_refl example_T_positive).
Defined.

Lemma POSpline_cumulative_hazard_formula_witness :
  POSplineFitter._cumulative_hazard (new (POSplineFitter.mro lifelines_defaults))
    example_params (Arr example_T) example_Xs
  = Ok (Arr [ ln (1 + exp (np.inner [1; 0] [1; 2] + 0.1 * ln 0.1
                           + 0.5 * basis_fn (ln 1.769) (ln 0.1972) (ln 6.728)
                                     (ln 0.1)));
              ln (1 + exp (np.inner [0; 1] [1; 2] + 0.1 * ln 2
                           + 0.5 * basis_fn (ln 1.769) (ln 0.1972) (ln 6.728)
                                     (ln 2))) ]).
Proof.
  exact (proj1 (POSpline_cumulative_hazard_formula lifelines_defaults
                  example_params example_Xs [1; 2] 0.1 0.5 [[1; 0]; [0; 1]]
                  example_T example_inputs eq_refl example_T_positive)).
Defined.

Lemma basis_linear_beyond_boundary_knots_witness :
  SplineFitter.basis (Sc (-1)) (Sc 1) (Sc 0) (Sc 3) = Ok (Sc (0 * -1 + 0)) /\
  SplineFitter.basis (Sc 4) (Sc 1) (Sc 0) (Sc 3)
  = Ok (Sc (- (3 * (3 - 1) * (1 - 0)) * 4
            + (3 ^ 3 - 1 ^ 3 - (3 - 1) * (3 ^ 2 + 3 * 0 + 0 ^ 2)))).
Proof.
  destruct (basis_linear_beyond_boundary_knots 1 0 3) as (H1 & H2 & _); [lra | lra |].
  split; [apply H1 | apply H2]; lra.
Defined.

Lemma PHSpline_at_phi2_zero_is_AltWeibull_witness :
  exists w,
    AltWeibullFitter._cumulative_hazard (new (AltWeibullFitter.mro lifelines_defaults))
      example_params (Arr example_T) example_Xs = Ok (Arr w) /\
    PHSplineFitter._cumulative_hazard (new (PHSplineFitter.mro lifelines_defaults))
      (<["phi2_" := [0]]> example_params) (Arr example_T) example_Xs = Ok (Arr w).
Proof.
  destruct (PHSpline_at_phi2_zero_is_AltWeibull lifelines_defaults example_params
              example_Xs [1; 2] 0.1 [[1; 0]; [0; 1]] example_T example_inputs
              example_T_positive) as (w & E1 & E2 & _).
  exists w. split; assumption.
Defined.

Lemma knots_constant_and_unchecked_witness :
  exists v,
    PHSplineFitter._cumulative_hazard
      (new (with_KNOTS [0.5; 1; 2; 4] (PHSplineFitter.mro lifelines_defaults)))
      example_params (Arr example_T) example_Xs
    = Ok (Arr v).
Proof.
  destruct (knots_constant_and_unchecked lifelines_defaults [0.5; 1; 2; 4]
              example_params example_Xs [1; 2] 0.1 0.5 [[1; 0]; [0; 1]] example_T)
    as (_ & v & w & E1 & _).
  - simpl. lia.
  - exact example_inputs.
  - reflexivity.
  - exists v. exact E1.
Defined.

Lemma basis_zero_below_min_knot_witness :
  SplineFitter.basis (Sc (-1)) (Sc 1) (Sc 0) (Sc 3) = Ok (Sc 0) /\
  SplineFitter.basis (Arr [-1; 0]) (Sc 1) (Sc 0) (Sc 3) = Ok (Arr [0; 0]).
Proof.
  destruct (basis_zero_below_min_knot 1 0 3) as (H1 & H2 & _); [lra | lra |].
  split; [apply H1; lra | apply (H2 [-1; 0])].
  repeat constructor; lra.
Defined.


(** * Further properties of the module *)

(** ** Reading one subject off a returned array *)

Lemma zip_with_subject {A B C : Type} (f : A -> B -> C) (l : list A)
    (k : list B) (i : nat) (a : A) (b : B) (c : C) :
  l !! i = Some a -> k !! i = Some b -> zip_with f l k !! i = Some c ->
  c = f a b.
Proof.
  intros Ha Hb Hc. rewrite lookup_zip_with, Ha, Hb in Hc. simpl in Hc.
  by injection Hc.
Qed.

Lemma PHSpline_subject (base : list (gmap string value))
    (params : gmap string (list R)) (Xs : gmap string (list (list R)))
    (beta : list R) (phi1 phi2 : R) (X : list (list R)) (ts v : list R)
    (i : nat) (row : list R) (t h : R) :
  regression_inputs params Xs beta phi1 X ts ->
  params !! "phi2_" = Some [phi2] ->
  PHSplineFitter._cumulative_hazard (new (PHSplineFitter.mro base)) params (Arr ts) Xs
    = Ok (Arr v) ->
  subject X ts v i row t h ->
  h = exp (np.inner row beta)
      * exp (phi1 * ln t
             + phi2 * basis_spec (ln t) (ln 1.769) (ln 0.1972) (ln 6.728)).
Proof.
  intros Hin Hphi2 E (Hrow & Ht & Hh).
  rewrite (PHSpline_published _ _ _ _ _ _ _ _ Hin Hphi2) in E.
  injection E as <-.
  by apply (zip_with_subject _ _ _ _ _ _ _ Hrow Ht Hh).
Qed.

Lemma POSpline_subject (base : list (gmap string value))
    (params : gmap string (list R)) (Xs : gmap string (list (list R)))
    (beta : list R) (phi1 phi2 : R) (X : list (list R)) (ts v : list R)
    (i : nat) (row : list R) (t h : R) :
  regression_inputs params Xs beta phi1 X ts ->
  params !! "phi2_" = Some [phi2] ->
  POSplineFitter._cumulative_hazard (new (POSplineFitter.mro base)) params (Arr ts) Xs
    = Ok (Arr v) ->
  subject X ts v i row t h ->
  h = ln (1 + exp (np.inner row beta
                   + (phi1 * ln t
                      + phi2 * basis_spec (ln t) (ln 1.769) (ln 0.1972) (ln 6.728)))).
Proof.
  intros Hin Hphi2 E (Hrow & Ht & Hh).
  rewrite (POSpline_published _ _ _ _ _ _ _ _ Hin Hphi2) in E.
  injection E as <-.
  by apply (zip_with_subject _ _ _ _ _ _ _ Hrow Ht Hh).
Qed.

Lemma AltWeibull_subject (self : list (gmap string value))
    (params : gmap string (list R)) (Xs : gmap string (list (list R)))
    (beta : list R) (phi1 : R) (X : list (list R)) (ts v : list R)
    (i : nat) (row : list R) (t h : R) :
  regression_inputs params Xs beta phi1 X ts ->
  AltWeibullFitter._cumulative_hazard self params (Arr ts) Xs = Ok (Arr v) ->
  subject X ts v i row t h ->
  h = exp (np.inner row beta) * exp (phi1 * ln t).
Proof.
  intros Hin E (Hrow & Ht & Hh). destruct Hin.
  erewrite AltWeibull_eval in E by done.
  injection E as <-.
  by apply (zip_with_subject _ _ _ _ _ _ _ Hrow Ht Hh).
Qed.

(** ** The initial point of the PH-spline model *)

(** X1.  [_create_initial_point] raises [KeyError] exactly when the
    frames have no ["beta_"]; otherwise it returns a dictionary whose
    keys are the class's [_fitted_parameter_names], with one zero per
    design column under ["beta_"], [0.1] under ["phi1_"] and [0] under
    ["phi2_"]. *)
Theorem initial_point_schema {A B C D : Type} (self : list (gmap string value))
    (Ts : A) (E : B) (entries : C) (weights : D) (Xs : gmap string DataFrame) :
  match Xs !! "beta_" with
  | Some X =>
      exists p beta,
        PHSplineFitter_methods._create_initial_point self Ts E entries weights Xs
          = Ok p /\
        dom p = list_to_set PHSplineFitter._fitted_parameter_names /\
        p !! "beta_" = Some beta /\
        length beta = length (columns X) /\ Forall (fun b => b = 0) beta /\
        p !! "phi1_" = Some [0.1] /\ p !! "phi2_" = Some [0]
  | None =>
      PHSplineFitter_methods._create_initial_point self Ts E entries weights Xs
        = Raise (KeyError "beta_")
  end.
Proof.
  unfold PHSplineFitter_methods._create_initial_point, getitem.
  destruct (Xs !! "beta_") as [X|]; [|done].
  eexists _, _. split; [reflexivity|]. split; [|split; [reflexivity|]].
  - rewrite !dom_insert_L, dom_empty_L. simpl. set_solver.
  - split; [apply length_replicate|]. split; [by apply Forall_replicate|].
    split; [reflexivity|].
    rewrite lookup_insert_ne, lookup_insert_ne, lookup_insert_eq by done.
    do 2 f_equal. lra.
Qed.

Lemma inner_zeros (row : list R) (n : nat) : np.inner row (np_zeros n) = 0.
Proof.
  unfold np.inner, np_zeros. revert n.
  induction row as [|x row IH]; intros [|n]; simpl; try done.
  rewrite IH. lra.
Qed.

Lemma zip_with_ignore_l {A B C : Type} (g : B -> C) (l : list A) (k : list B) :
  length k = length l -> zip_with (fun _ b => g b) l k = map g k.
Proof.
  revert k. induction l as [|a l IH]; intros [|b k] Hlen; simpl in *; try done.
  rewrite IH by lia. done.
Qed.

(** X2.  At its initial point the PH-spline model has cumulative hazard
    T^0.1 for every subject, whatever the covariates: the coefficients
    start at 0 and the spline term is switched off. *)
Theorem initial_point_hazard {A B C D : Type} (base self : list (gmap string value))
    (Ts : A) (E : B) (entries : C) (weights : D) (Xs : gmap string DataFrame)
    (X : DataFrame) (ts : list R) :
  Xs !! "beta_" = Some X ->
  Forall (fun row => length row = length (columns X)) (values X) ->
  length ts = length (values X) ->
  positive (Arr ts) ->
  exists p,
    PHSplineFitter_methods._create_initial_point self Ts E entries weights Xs
      = Ok p /\
    PHSplineFitter._cumulative_hazard (new (PHSplineFitter.mro base)) p (Arr ts)
      (design Xs)
    = Ok (Arr (map (fun t => Rpower t 0.1) ts)).
Proof.
  intros HX Hrows Hlen _.
  unfold PHSplineFitter_methods._create_initial_point.
  rewrite (getitem_Some _ _ _ HX), bind_Ok.
  eexists. split; [reflexivity|].
  erewrite (PHSpline_published base _ _ (np_zeros (length (columns X))) 0.1 0.0
              (values X) ts); [| |done].
  - do 2 f_equal. rewrite <- (zip_with_ignore_l _ (values X)) by done.
    apply zip_with_ext; try done. intros row t.
    rewrite inner_zeros, exp_0. unfold Rpower.
    replace (0.0 * _) with 0 by lra. by rewrite Rmult_1_l, Rplus_0_r.
  - split; try done.
    + unfold design. by rewrite lookup_fmap, HX.
    + unfold np_zeros. by rewrite length_replicate.
Qed.

Lemma initial_point_hazard_witness :
  let Xs : gmap string DataFrame :=
    {[ "beta_" := {| columns := ["medium"; "poor"]; values := [[1; 0]; [0; 1]] |} ]} in
  exists p,
    PHSplineFitter_methods._create_initial_point
      (new (PHSplineFitter.mro lifelines_defaults)) tt tt tt tt Xs = Ok p /\
    PHSplineFitter._cumulative_hazard (new (PHSplineFitter.mro lifelines_defaults))
      p (Arr example_T) (design Xs)
    = Ok (Arr [Rpower 0.1 0.1; Rpower 2 0.1]).
Proof.
  intros Xs.
  apply (initial_point_hazard lifelines_defaults _ tt tt tt tt Xs
           {| columns := ["medium"; "poor"]; values := [[1; 0]; [0; 1]] |}
           example_T).
  - reflexivity.
  - repeat constructor.
  - reflexivity.
  - exact example_T_positive.
Defined.

(** ** The Weibull baseline *)

Lemma positive_lookup (ts : list R) (i : nat) (t : R) :
  positive (Arr ts) -> ts !! i = Some t -> 0 < t.
Proof. intros H Hi. exact (Forall_lookup_1 _ _ _ _ H Hi). Qed.

(** X3.  On positive times, and with X·beta_ between −700 and 700 so
    that its exponential neither underflows nor overflows, the
    Alt-Weibull cumulative hazard of a subject is exp(X·beta_) ·
    T^phi1_ and is never negative.  For two subjects with the same
    covariates it does not fall with time when [phi1_ >= 0], does not
    depend on time when [phi1_ = 0], and does not rise with time when
    [phi1_ <= 0]: the code does not restrict the sign of [phi1_]. *)
Theorem AltWeibull_Weibull_form (self : list (gmap string value))
    (params : gmap string (list R)) (Xs : gmap string (list (list R)))
    (beta : list R) (phi1 : R) (X : list (list R)) (ts : list R) :
  regression_inputs params Xs beta phi1 X ts ->
  positive (Arr ts) ->
  Forall (fun row => -700 <= np.inner row beta <= 700) X ->
  exists v,
    AltWeibullFitter._cumulative_hazard self params (Arr ts) Xs = Ok (Arr v) /\
    v = zip_with (fun row t => exp (np.inner row beta) * Rpower t phi1) X ts /\
    Forall (fun h => 0 <= h) v /\
    forall i j row ti tj hi hj,
      subject X ts v i row ti hi -> subject X ts v j row tj hj -> ti <= tj ->
      (0 <= phi1 -> hi <= hj) /\ (phi1 = 0 -> hi = hj) /\ (phi1 <= 0 -> hj <= hi).
Proof.
  intros Hin Hpos _.
  assert (E : AltWeibullFitter._cumulative_hazard self params (Arr ts) Xs = _)
    by (destruct Hin; by eapply AltWeibull_eval).
  eexists. split; [exact E|]. split; [reflexivity|]. split.
  { apply Forall_forall. intros h Hh.
    apply list_elem_of_lookup in Hh as [i Hi].
    apply lookup_zip_with_Some in Hi as (row & t & -> & _ & _).
    left. apply Rmult_lt_0_compat; apply exp_pos. }
  intros i j row ti tj hi hj Si Sj Hle.
  pose proof (AltWeibull_subject _ _ _ _ _ _ _ _ _ _ _ _ Hin E Si) as ->.
  pose proof (AltWeibull_subject _ _ _ _ _ _ _ _ _ _ _ _ Hin E Sj) as ->.
  assert (0 < ti) by (destruct Si as (_ & ? & _); by eapply positive_lookup).
  assert (Hln : ln ti <= ln tj).
  { destruct Hle as [Hlt | ->]; [left; apply ln_increasing; lra | right; done]. }
  pose proof (exp_pos (np.inner row beta)) as He.
  assert (Hexp : forall a b, a <= b -> exp a <= exp b).
  { intros a b [Hab | ->]; [left; by apply exp_increasing | right; done]. }
  repeat split.
  - intros Hphi. apply Rmult_le_compat_l; [lra|]. apply Hexp. nra.
  - intros ->. by rewrite !Rmult_0_l.
  - intros Hphi. apply Rmult_le_compat_l; [lra|]. apply Hexp. nra.
Qed.

Lemma AltWeibull_Weibull_form_witness :
  AltWeibullFitter._cumulative_hazard (new (AltWeibullFitter.mro lifelines_defaults))
    example_params (Arr example_T) example_Xs
  = Ok (Arr [ exp (np.inner [1; 0] [1; 2]) * Rpower 0.1 0.1;
              exp (np.inner [0; 1] [1; 2]) * Rpower 2 0.1 ]).
Proof.
  destruct (AltWeibull_Weibull_form (new (AltWeibullFitter.mro lifelines_defaults))
              example_params example_Xs [1; 2] 0.1 [[1; 0]; [0; 1]] example_T
              example_inputs example_T_positive) as (v & E & -> & _ & _).
  - repeat constructor; unfold np.inner; simpl; lra.
  - exact E.
Defined.

(** ** Proportional hazards and proportional odds *)

Lemma exp_ratio (a b : R) : exp (a - b) * exp b = exp a.
Proof. rewrite <- exp_plus. f_equal. ring. Qed.

(** X4.  Proportional hazards: at one and the same time, the PH-spline
    cumulative hazards of two subjects differ by the factor
    exp((x_i − x_j)·beta_), which depends on neither the time nor
    [phi1_] nor [phi2_]; the Alt-Weibull model has the same factor. *)
Theorem proportional_hazards (base self : list (gmap string value))
    (params : gmap string (list R)) (Xs : gmap string (list (list R)))
    (beta : list R) (phi1 phi2 : R) (X : list (list R)) (ts : list R) :
  regression_inputs params Xs beta phi1 X ts ->
  params !! "phi2_" = Some [phi2] ->
  positive (Arr ts) ->
  exists v w,
    PHSplineFitter._cumulative_hazard (new (PHSplineFitter.mro base)) params (Arr ts) Xs
      = Ok (Arr v) /\
    AltWeibullFitter._cumulative_hazard self params (Arr ts) Xs = Ok (Arr w) /\
    forall i j ri rj t,
      (forall hi hj,
         subject X ts v i ri t hi -> subject X ts v j rj t hj ->
         hi = exp (np.inner ri beta - np.inner rj beta) * hj) /\
      (forall hi hj,
         subject X ts w i ri t hi -> subject X ts w j rj t hj ->
         hi = exp (np.inner ri beta - np.inner rj beta) * hj).
Proof.
  intros Hin Hphi2 _.
  pose proof (PHSpline_published base _ _ _ _ _ _ _ Hin Hphi2) as EPH.
  assert (EAW : AltWeibullFitter._cumulative_hazard self params (Arr ts) Xs = _)
    by (destruct Hin; by eapply AltWeibull_eval).
  eexists _, _. split; [exact EPH|]. split; [exact EAW|].
  intros i j ri rj t. split; intros hi hj Si Sj.
  - rewrite (PHSpline_subject _ _ _ _ _ _ _ _ _ _ _ _ _ Hin Hphi2 EPH Si).
    rewrite (PHSpline_subject _ _ _ _ _ _ _ _ _ _ _ _ _ Hin Hphi2 EPH Sj).
    by rewrite <- Rmult_assoc, exp_ratio.
  - rewrite (AltWeibull_subject _ _ _ _ _ _ _ _ _ _ _ _ Hin EAW Si).
    rewrite (AltWeibull_subject _ _ _ _ _ _ _ _ _ _ _ _ Hin EAW Sj).
    by rewrite <- Rmult_assoc, exp_ratio.
Qed.

Lemma proportional_hazards_witness :
  exists v,
    PHSplineFitter._cumulative_hazard (new (PHSplineFitter.mro lifelines_defaults))
      example_params (Arr [2; 2]) example_Xs = Ok (Arr v) /\
    forall hi hj,
      subject [[1; 0]; [0; 1]] [2; 2] v 0 [1; 0] 2 hi ->
      subject [[1; 0]; [0; 1]] [2; 2] v 1 [0; 1] 2 hj ->
      hi = exp (np.inner [1; 0] [1; 2] - np.inner [0; 1] [1; 2]) * hj.
Proof.
  destruct (proportional_hazards lifelines_defaults [] example_params example_Xs
              [1; 2] 0.1 0.5 [[1; 0]; [0; 1]] [2; 2]) as (v & w & E & _ & H).
  - split; try reflexivity. repeat constructor.
  - reflexivity.
  - repeat constructor; lra.
  - exists v. split; [exact E|]. intros hi hj. apply (H 0%nat 1%nat).
Defined.

(** X5.  Proportional odds: with odds = exp(cumulative hazard) − 1, the
    PO-spline odds of a subject are exp(X·beta_ + phi1_·log T +
    phi2_·basis term), so at one and the same time the odds of two
    subjects differ by the factor exp((x_i − x_j)·beta_). *)
Theorem proportional_odds (base : list (gmap string value))
    (params : gmap string (list R)) (Xs : gmap string (list (list R)))
    (beta : list R) (phi1 phi2 : R) (X : list (list R)) (ts : list R) :
  regression_inputs params Xs beta phi1 X ts ->
  params !! "phi2_" = Some [phi2] ->
  positive (Arr ts) ->
  exists v,
    POSplineFitter._cumulative_hazard (new (POSplineFitter.mro base)) params (Arr ts) Xs
      = Ok (Arr v) /\
    (forall i row t h,
       subject X ts v i row t h ->
       exp h - 1
       = exp (np.inner row beta + phi1 * ln t
              + phi2 * basis_fn (ln 1.769) (ln 0.1972) (ln 6.728) (ln t))) /\
    (forall i j ri rj t hi hj,
       subject X ts v i ri t hi -> subject X ts v j rj t hj ->
       exp hi - 1 = exp (np.inner ri beta - np.inner rj beta) * (exp hj - 1)).
Proof.
  intros Hin Hphi2 _.
  pose proof (POSpline_published base _ _ _ _ _ _ _ Hin Hphi2) as EPO.
  assert (Hodds : forall z, exp (ln (1 + exp z)) - 1 = exp z).
  { intros z. rewrite exp_ln; [ring|]. pose proof (exp_pos z). lra. }
  eexists. split; [exact EPO|]. split.
  - intros i row t h S.
    rewrite (POSpline_subject _ _ _ _ _ _ _ _ _ _ _ _ _ Hin Hphi2 EPO S).
    rewrite Hodds, basis_fn_spec. f_equal. ring.
  - intros i j ri rj t hi hj Si Sj.
    rewrite (POSpline_subject _ _ _ _ _ _ _ _ _ _ _ _ _ Hin Hphi2 EPO Si).
    rewrite (POSpline_subject _ _ _ _ _ _ _ _ _ _ _ _ _ Hin Hphi2 EPO Sj).
    rewrite !Hodds.
    replace (np.inner ri beta + _) with
      ((np.inner ri beta - np.inner rj beta)
       + (np.inner rj beta
          + (phi1 * ln t
             + phi2 * basis_spec (ln t) (ln 1.769) (ln 0.1972) (ln 6.728))))
      by ring.
    apply exp_plus.
Qed.

Lemma proportional_odds_witness :
  exists v,
    POSplineFitter._cumulative_hazard (new (POSplineFitter.mro lifelines_defaults))
      example_params (Arr [2; 2]) example_Xs = Ok (Arr v) /\
    forall hi hj,
      subject [[1; 0]; [0; 1]] [2; 2] v 0 [1; 0] 2 hi ->
      subject [[1; 0]; [0; 1]] [2; 2] v 1 [0; 1] 2 hj ->
      exp hi - 1
      = exp (np.inner [1; 0] [1; 2] - np.inner [0; 1] [1; 2]) * (exp hj - 1).
Proof.
  destruct (proportional_odds lifelines_defaults example_params example_Xs
              [1; 2] 0.1 0.5 [[1; 0]; [0; 1]] [2; 2]) as (v & E & _ & H).
  - split; try reflexivity. repeat constructor.
  - reflexivity.
  - repeat constructor; lra.
  - exists v. split; [exact E|]. intros hi hj. apply (H 0%nat 1%nat).
Defined.

(** X6.  On the same inputs the PO-spline cumulative hazard is
    log(1 + H) where H is the PH-spline cumulative hazard, subject by
    subject. *)
Theorem POSpline_is_log1p_of_PHSpline (base : list (gmap string value))
    (params : gmap string (list R)) (Xs : gmap string (list (list R)))
    (beta : list R) (phi1 phi2 : R) (X : list (list R)) (ts : list R) :
  regression_inputs params Xs beta phi1 X ts ->
  params !! "phi2_" = Some [phi2] ->
  positive (Arr ts) ->
  exists v,
    PHSplineFitter._cumulative_hazard (new (PHSplineFitter.mro base)) params (Arr ts) Xs
      = Ok (Arr v) /\
    POSplineFitter._cumulative_hazard (new (POSplineFitter.mro base)) params (Arr ts) Xs
      = Ok (Arr (map (fun h => ln (1 + h)) v)).
Proof.
  intros Hin Hphi2 _.
  pose proof (PHSpline_published base _ _ _ _ _ _ _ Hin Hphi2) as EPH.
  eexists. split; [exact EPH|].
  rewrite (POSpline_published base _ _ _ _ _ _ _ Hin Hphi2).
  rewrite map_zip_with_fun. do 2 f_equal.
  apply zip_with_ext; try done. intros row t. by rewrite exp_plus.
Qed.

Lemma POSpline_is_log1p_of_PHSpline_witness :
  exists v,
    PHSplineFitter._cumulative_hazard (new (PHSplineFitter.mro lifelines_defaults))
      example_params (Arr example_T) example_Xs = Ok (Arr v) /\
    POSplineFitter._cumulative_hazard (new (POSplineFitter.mro lifelines_defaults))
      example_params (Arr example_T) example_Xs
    = Ok (Arr (map (fun h => ln (1 + h)) v)).
Proof.
  destruct (POSpline_is_log1p_of_PHSpline lifelines_defaults example_params
              example_Xs [1; 2] 0.1 0.5 [[1; 0]; [0; 1]] example_T example_inputs
              eq_refl example_T_positive) as (v & E1 & E2).
  exists v. split; assumption.
Defined.

(** ** Missing keys *)

(** X7.  Whatever the other inputs are, each of the three models raises
    [KeyError "beta_"] when the design matrices or the parameters have
    no ["beta_"]: these two lookups come first. *)
Theorem missing_beta_raises_KeyError (self : list (gmap string value))
    (params : gmap string (list R)) (T : ndarray)
    (Xs : gmap string (list (list R))) :
  Xs !! "beta_" = None \/ params !! "beta_" = None ->
  PHSplineFitter._cumulative_hazard self params T Xs = Raise (KeyError "beta_") /\
  POSplineFitter._cumulative_hazard self params T Xs = Raise (KeyError "beta_") /\
  AltWeibullFitter._cumulative_hazard self params T Xs = Raise (KeyError "beta_").
Proof.
  intros H.
  unfold PHSplineFitter._cumulative_hazard, POSplineFitter._cumulative_hazard,
    AltWeibullFitter._cumulative_hazard, getitem.
  destruct (Xs !! "beta_") as [X|]; [|done].
  destruct H as [H|H]; [done|]. by rewrite H.
Qed.

Lemma missing_beta_raises_KeyError_witness :
  PHSplineFitter._cumulative_hazard (new (PHSplineFitter.mro lifelines_defaults))
    (delete "beta_" example_params) (Arr example_T) example_Xs
  = Raise (KeyError "beta_").
Proof.
  exact (proj1 (missing_beta_raises_KeyError _ (delete "beta_" example_params)
                  (Arr example_T) example_Xs (or_intror eq_refl))).
Defined.

(** X8.  When only ["phi2_"] is missing from otherwise well-shaped
    parameters, the two spline models raise [KeyError "phi2_"], while
    the Alt-Weibull model, which has no such parameter, returns. *)
Theorem missing_phi2_raises_KeyError (base self : list (gmap string value))
    (params : gmap string (list R)) (Xs : gmap string (list (list R)))
    (beta : list R) (phi1 : R) (X : list (list R)) (ts : list R) :
  regression_inputs params Xs beta phi1 X ts ->
  params !! "phi2_" = None ->
  PHSplineFitter._cumulative_hazard (new (PHSplineFitter.mro base)) params (Arr ts) Xs
    = Raise (KeyError "phi2_") /\
  POSplineFitter._cumulative_hazard (new (POSplineFitter.mro base)) params (Arr ts) Xs
    = Raise (KeyError "phi2_") /\
  exists v, AltWeibullFitter._cumulative_hazard self params (Arr ts) Xs = Ok (Arr v).
Proof.
  intros [Hb Hp HX Hrows Hsub] Hphi2. split; [|split].
  - unfold PHSplineFitter._cumulative_hazard.
    rewrite (getitem_Some _ _ _ HX), (getitem_Some _ _ _ Hb),
      (getitem_Some _ _ _ Hp).
    cbv zeta. rewrite !bind_Ok, dot_rows by done. np_eval.
    unfold getitem. by rewrite Hphi2.
  - unfold POSplineFitter._cumulative_hazard.
    rewrite (getitem_Some _ _ _ HX), (getitem_Some _ _ _ Hb),
      (getitem_Some _ _ _ Hp).
    cbv zeta. rewrite !bind_Ok, dot_rows by done. np_eval.
    unfold getitem. by rewrite Hphi2.
  - eexists. by eapply AltWeibull_eval.
Qed.

Lemma missing_phi2_raises_KeyError_witness :
  PHSplineFitter._cumulative_hazard (new (PHSplineFitter.mro lifelines_defaults))
    (delete "phi2_" example_params) (Arr example_T) example_Xs
  = Raise (KeyError "phi2_").
Proof.
  refine (proj1 (missing_phi2_raises_KeyError lifelines_defaults []
                   (delete "phi2_" example_params) example_Xs [1; 2] 0.1
                   [[1; 0]; [0; 1]] example_T _ eq_refl)).
  split; try reflexivity. repeat constructor.
Defined.

(** ** Shapes *)

Lemma dot_ragged (X : list (list R)) (b : list R) :
  ~ Forall (fun row => length row = length b) X ->
  np.dot X b = Raise ValueError.
Proof.
  intros H. unfold np.dot.
  destruct (forallb _ X) eqn:E; [|done].
  exfalso. apply H. apply Forall_forall. intros row Hin.
  apply Nat.eqb_eq. rewrite forallb_forall in E. apply E.
  by apply list_elem_of_In.
Qed.

Lemma broadcast_mismatch_raises (f : R -> R -> R) (l k : list R) :
  length l <> length k -> length l <> 1%nat -> length k <> 1%nat ->
  np.broadcast f (Arr l) (Arr k) = Raise ValueError.
Proof.
  intros Hlk Hl Hk. simpl.
  destruct (Nat.eqb_spec (length l) (length k)) as [E|_]; [done|].
  destruct l as [|x [|x' l]], k as [|y [|y' k]]; simpl in *; done.
Qed.

Lemma broadcast_singleton_r (f : R -> R -> R) (l : list R) (y : R) :
  np.broadcast f (Arr l) (Arr [y]) = Ok (Arr (map (fun x => f x y) l)).
Proof. destruct l as [|x [|x' l]]; reflexivity. Qed.

Section Shapes.
Context (self : list (gmap string value)) (K : list R) (k0 k1 kl : R).
Context (params : gmap string (list R)) (Xs : gmap string (list (list R))).
Context (beta : list R) (phi1 phi2 : R) (X : list (list R)).

Hypothesis self_KNOTS : getattr self "KNOTS" = Ok (VFloatList K).
Hypothesis K_0 : index K 0 = Ok k0.
Hypothesis K_1 : index K 1 = Ok k1.
Hypothesis K_last : index K (-1) = Ok kl.
Hypothesis params_beta : params !! "beta_" = Some beta.
Hypothesis params_phi1 : params !! "phi1_" = Some [phi1].
Hypothesis params_phi2 : params !! "phi2_" = Some [phi2].
Hypothesis Xs_beta : Xs !! "beta_" = Some X.
Hypothesis rows : Forall (fun row => length row = length beta) X.

Ltac lookups :=
  rewrite (getitem_Some _ _ _ Xs_beta), (getitem_Some _ _ _ params_beta),
    (getitem_Some _ _ _ params_phi1), ?(getitem_Some _ _ _ params_phi2);
  cbv zeta; rewrite !bind_Ok, dot_rows by done; np_unfold;
  repeat first [ np_step | rewrite self_KNOTS | rewrite as_floats_list
               | rewrite K_0 | rewrite K_1 | rewrite K_last
               | rewrite basis_array | rewrite basis_scalar ].

(** The last operation of each model on a 1-d array of times. *)
Lemma PHSpline_last_step (ts : list R) :
  PHSplineFitter._cumulative_hazard self params (Arr ts) Xs
  = np.mul (Arr (map (fun row => exp (np.inner row beta)) X))
      (Arr (map (fun t => exp (phi1 * ln t
                               + phi2 * basis_spec (ln t) (ln k1) (ln k0) (ln kl)))
              ts)).
Proof. unfold PHSplineFitter._cumulative_hazard. lookups. reflexivity. Qed.

Lemma POSpline_last_step (ts : list R) :
  POSplineFitter._cumulative_hazard self params (Arr ts) Xs
  = (z ← np.add (Arr (map (fun row => np.inner row beta) X))
          (Arr (map (fun t => phi1 * ln t
                              + phi2 * basis_spec (ln t) (ln k1) (ln k0) (ln kl))
                  ts));
     mret (np.log1p (np.exp z))).
Proof. unfold POSplineFitter._cumulative_hazard. lookups. reflexivity. Qed.

Lemma AltWeibull_last_step (ts : list R) :
  AltWeibullFitter._cumulative_hazard self params (Arr ts) Xs
  = np.mul (Arr (map (fun row => exp (np.inner row beta)) X))
      (Arr (map (fun t => exp (phi1 * ln t)) ts)).
Proof. unfold AltWeibullFitter._cumulative_hazard. lookups. reflexivity. Qed.

(** The same on a 0-d time. *)
Lemma PHSpline_scalar_time (t : R) :
  PHSplineFitter._cumulative_hazard self params (Sc t) Xs
  = Ok (Arr (map (fun row =>
                    exp (np.inner row beta)
                    * exp (phi1 * ln t
                           + phi2 * basis_spec (ln t) (ln k1) (ln k0) (ln kl)))
               X)).
Proof.
  unfold PHSplineFitter._cumulative_hazard. lookups.
  simpl map at 2 3.
  rewrite (broadcast_same_length Rplus [_] [_]) by done. simpl zip_with.
  rewrite bind_Ok, ufunc_Arr. simpl (map exp [_]).
  by rewrite broadcast_singleton_r, map_map.
Qed.
End Shapes.

(** X9.  Shapes that do not fit raise [ValueError] in all three
    models: a design row whose length is not that of [beta_], and a
    number of times that is neither the number of subjects nor 1 (with
    more than one subject). *)
Theorem shape_mismatch_raises_ValueError (base : list (gmap string value))
    (params : gmap string (list R)) (Xs : gmap string (list (list R)))
    (beta : list R) (phi1 phi2 : R) (X : list (list R)) (ts : list R) :
  params !! "beta_" = Some beta ->
  params !! "phi1_" = Some [phi1] ->
  params !! "phi2_" = Some [phi2] ->
  Xs !! "beta_" = Some X ->
  let PH := PHSplineFitter._cumulative_hazard (new (PHSplineFitter.mro base)) in
  let PO := POSplineFitter._cumulative_hazard (new (POSplineFitter.mro base)) in
  let AW := AltWeibullFitter._cumulative_hazard (new (AltWeibullFitter.mro base)) in
  (~ Forall (fun row => length row = length beta) X ->
   PH params (Arr ts) Xs = Raise ValueError /\
   PO params (Arr ts) Xs = Raise ValueError /\
   AW params (Arr ts) Xs = Raise ValueError) /\
  (Forall (fun row => length row = length beta) X ->
   length ts <> length X -> length ts <> 1%nat -> length X <> 1%nat ->
   PH params (Arr ts) Xs = Raise ValueError /\
   PO params (Arr ts) Xs = Raise ValueError /\
   AW params (Arr ts) Xs = Raise ValueError).
Proof.
  intros Hb Hp1 Hp2 HX PH PO AW. split.
  - intros Hrag.
    unfold PH, PO, AW, PHSplineFitter._cumulative_hazard,
      POSplineFitter._cumulative_hazard, AltWeibullFitter._cumulative_hazard.
    rewrite (getitem_Some _ _ _ HX), (getitem_Some _ _ _ Hb), !bind_Ok.
    by rewrite dot_ragged.
  - intros Hrows Hlen Hts HXn.
    destruct published_knots_index as (I0 & I1 & Il).
    split; [|split].
    + unfold PH.
      erewrite PHSpline_last_step by (done || apply PHSpline_KNOTS).
      apply broadcast_mismatch_raises; rewrite !length_map; congruence.
    + unfold PO.
      erewrite POSpline_last_step by (done || apply POSpline_KNOTS).
      unfold np.add. rewrite broadcast_mismatch_raises; [done|..];
        rewrite !length_map; congruence.
    + unfold AW. erewrite AltWeibull_last_step by done.
      apply broadcast_mismatch_raises; rewrite !length_map; congruence.
Qed.

Lemma shape_mismatch_raises_ValueError_witness :
  PHSplineFitter._cumulative_hazard (new (PHSplineFitter.mro lifelines_defaults))
    example_params (Arr [1; 2; 3]) example_Xs = Raise ValueError /\
  POSplineFitter._cumulative_hazard (new (POSplineFitter.mro lifelines_defaults))
    (<["beta_" := [1]]> example_params) (Arr example_T) example_Xs
  = Raise ValueError.
Proof.
  split.
  - refine (proj1 (proj2 (shape_mismatch_raises_ValueError lifelines_defaults
                            example_params example_Xs [1; 2] 0.1 0.5
                            [[1; 0]; [0; 1]] [1; 2; 3]
                            eq_refl eq_refl eq_refl eq_refl) _ _ _ _)).
    + repeat constructor.
    + simpl; lia.
    + simpl; lia.
    + simpl; lia.
  - refine (proj1 (proj2 (proj1 (shape_mismatch_raises_ValueError lifelines_defaults
                            (<["beta_" := [1]]> example_params) example_Xs [1] 0.1 0.5
                            [[1; 0]; [0; 1]] example_T
                            eq_refl eq_refl eq_refl eq_refl) _))).
    intros H. apply Forall_cons in H as [H _]. simpl in H. lia.
Defined.

(** X10.  A single time, given as a 0-d value or as an array of length
    1, is broadcast over all subjects: the PH-spline model returns one
    cumulative hazard per design row, each at that time. *)
Theorem single_time_is_broadcast (base : list (gmap string value))
    (params : gmap string (list R)) (Xs : gmap string (list (list R)))
    (beta : list R) (phi1 phi2 : R) (X : list (list R)) (t : R) :
  params !! "beta_" = Some beta ->
  params !! "phi1_" = Some [phi1] ->
  params !! "phi2_" = Some [phi2] ->
  Xs !! "beta_" = Some X ->
  Forall (fun row => length row = length beta) X ->
  0 < t ->
  let PH := PHSplineFitter._cumulative_hazard (new (PHSplineFitter.mro base)) in
  let each :=
    map (fun row =>
           exp (np.inner row beta)
           * exp (phi1 * ln t
                  + phi2 * basis_fn (ln 1.769) (ln 0.1972) (ln 6.728) (ln t))) X in
  PH params (Sc t) Xs = Ok (Arr each) /\
  PH params (Arr [t]) Xs = Ok (Arr each).
Proof.
  intros Hb Hp1 Hp2 HX Hrows _ PH each.
  destruct published_knots_index as (I0 & I1 & Il).
  split; unfold PH.
  - by erewrite PHSpline_scalar_time by (done || apply PHSpline_KNOTS).
  - erewrite PHSpline_last_step by (done || apply PHSpline_KNOTS).
    simpl (map _ [t]). unfold np.mul.
    by rewrite broadcast_singleton_r, map_map.
Qed.

Lemma single_time_is_broadcast_witness :
  PHSplineFitter._cumulative_hazard (new (PHSplineFitter.mro lifelines_defaults))
    example_params (Sc 2) example_Xs
  = PHSplineFitter._cumulative_hazard (new (PHSplineFitter.mro lifelines_defaults))
      example_params (Arr [2; 2]) example_Xs.
Proof.
  destruct (single_time_is_broadcast lifelines_defaults example_params example_Xs
              [1; 2] 0.1 0.5 [[1; 0]; [0; 1]] 2 eq_refl eq_refl eq_refl eq_refl)
    as [E _].
  - repeat constructor.
  - lra.
  - rewrite E. reflexivity.
Defined.

(** ** Which knots are read *)





(** ** The sign and the slope of the basis *)

Lemma middle_piece_neg (u d L : R) :
  0 < d -> d <= u -> u <= L -> d < L ->
  (u - d) ^ 3 - (L - d) / L * u ^ 3 < 0.
Proof.
  intros Hd Hu HL HdL.
  set (lam := (L - d) / L).
  assert (Hlam : 0 < lam < 1).
  { unfold lam. split.
    - apply Rdiv_lt_0_compat; lra.
    - apply Rmult_lt_reg_r with L; [lra|]. unfold Rdiv.
      rewrite Rmult_assoc, Rinv_l by lra. lra. }
  assert (HlamL : lam * L = L - d) by (unfold lam; field; lra).
  assert (H1 : u - d <= lam * u) by nra.
  assert (H2 : (u - d) ^ 3 <= (lam * u) ^ 3) by (apply pow_incr; lra).
  assert (H3 : (lam * u) ^ 3 < lam * u ^ 3).
  { replace ((lam * u) ^ 3) with (lam * u ^ 3 * (lam * lam)) by ring.
    assert (0 < u ^ 3) by (apply pow_lt; lra).
    assert (lam * lam < 1) by nra.
    assert (0 < lam * u ^ 3) by (apply Rmult_lt_0_compat; lra).
    nra. }
  lra.
Qed.

Lemma basis_spec_nonpos (x knot min_knot max_knot : R) :
  min_knot < knot -> knot < max_knot ->
  basis_spec x knot min_knot max_knot <= 0 /\
  (min_knot < x -> basis_spec x knot min_knot max_knot < 0).
Proof.
  intros Hk HM.
  assert (Hlam : 0 < (max_knot - knot) / (max_knot - min_knot))
    by (apply Rdiv_lt_0_compat; lra).
  destruct (Rle_or_lt x min_knot) as [H1 | H1].
  { split; [|lra]. rewrite basis_spec_below by lra. lra. }
  assert (basis_spec x knot min_knot max_knot < 0); [|split; [lra | done]].
  destruct (Rle_or_lt x knot) as [H2 | H2].
  { rewrite basis_spec_lower by lra.
    assert (0 < (x - min_knot) ^ 3) by (apply pow_lt; lra). nra. }
  assert (Hmid : forall y, knot <= y -> y <= max_knot ->
            (y - knot) ^ 3
            - (max_knot - knot) / (max_knot - min_knot) * (y - min_knot) ^ 3 < 0).
  { intros y Hy1 Hy2.
    pose proof (middle_piece_neg (y - min_knot) (knot - min_knot)
                  (max_knot - min_knot)) as H.
    replace (y - min_knot - (knot - min_knot)) with (y - knot) in H by ring.
    replace (max_knot - min_knot - (knot - min_knot)) with (max_knot - knot)
      in H by ring.
    apply H; lra. }
  destruct (Rle_or_lt x max_knot) as [H3 | H3].
  { unfold basis_spec.
    rewrite (relu_spec_neg (x - max_knot)) by lra.
    rewrite !relu_spec_pos by lra.
    specialize (Hmid x). lra. }
  rewrite basis_spec_above by lra.
  specialize (Hmid max_knot).
  assert (E : (max_knot - knot) ^ 3
              - (max_knot - knot) / (max_knot - min_knot)
                * (max_knot - min_knot) ^ 3
              = - (3 * (max_knot - knot) * (knot - min_knot)) * max_knot
                + (max_knot ^ 3 - knot ^ 3
                   - (max_knot - knot)
                     * (max_knot ^ 2 + max_knot * min_knot + min_knot ^ 2)))
    by (field; lra).
  assert (0 < 3 * (max_knot - knot) * (knot - min_knot) * (x - max_knot))
    by (repeat apply Rmult_lt_0_compat; lra).
  lra.
Qed.

(** X12.  The basis term of the models is never positive: for every
    time T > 0, the basis at log T with the published knots is at most
    0, and it is exactly 0 for T <= 0.1972. *)
Theorem basis_never_positive (t : R) :
  0 < t ->
  exists b,
    SplineFitter.basis (np.log (Sc t)) (np.log (Sc 1.769)) (np.log (Sc 0.1972))
      (np.log (Sc 6.728)) = Ok (Sc b) /\
    b <= 0 /\ (t <= 0.1972 -> b = 0).
Proof.
  intros Ht. eexists. split; [apply basis_scalar|].
  destruct published_knots_log_order as [K1 K2].
  split; [by apply basis_spec_nonpos|].
  intros Hle. apply basis_spec_below; try lra.
  destruct Hle as [Hlt | ->]; [left; by apply ln_increasing | right; done].
Qed.

Lemma basis_never_positive_witness :
  exists b,
    SplineFitter.basis (np.log (Sc 2)) (np.log (Sc 1.769)) (np.log (Sc 0.1972))
      (np.log (Sc 6.728)) = Ok (Sc b) /\ b <= 0.
Proof.
  destruct (basis_never_positive 2) as (b & E & H & _); [lra|].
  exists b. split; assumption.
Defined.



Lemma middle_slope_nonpos (u d L : R) :
  0 < d -> d <= u -> u <= L -> d < L ->
  (u - d) ^ 2 - (L - d) / L * u ^ 2 <= 0.
Proof.
  intros Hd Hu HL HdL.
  set (lam := (L - d) / L).
  assert (Hlam : 0 < lam < 1).
  { unfold lam. split.
    - apply Rdiv_lt_0_compat; lra.
    - apply Rmult_lt_reg_r with L; [lra|]. unfold Rdiv.
      rewrite Rmult_assoc, Rinv_l by lra. lra. }
  assert (HlamL : lam * L = L - d) by (unfold lam; field; lra).
  assert (H1 : u - d <= lam * u) by nra.
  assert (H2 : (u - d) ^ 2 <= (lam * u) ^ 2) by (apply pow_incr; lra).
  assert (H3 : (lam * u) ^ 2 <= lam * u ^ 2).
  { replace ((lam * u) ^ 2) with (lam * u ^ 2 * lam) by ring.
    assert (0 <= lam * u ^ 2) by (apply Rmult_le_pos; [lra | apply pow2_ge_0]).
    nra. }
  lra.
Qed.

Lemma basis_deriv_nonpos (knot min_knot max_knot x : R) :
  min_knot < knot -> knot < max_knot ->
  basis_deriv knot min_knot max_knot x <= 0.
Proof.
  intros Hk HM. unfold basis_deriv.
  assert (Hlam : 0 < (max_knot - knot) / (max_knot - min_knot))
    by (apply Rdiv_lt_0_compat; lra).
  destruct (Rle_or_lt x min_knot) as [H1 | H1].
  { rewrite !relu_spec_neg by lra. lra. }
  destruct (Rle_or_lt x knot) as [H2 | H2].
  { rewrite (relu_spec_neg (x - knot)), (relu_spec_neg (x - max_knot)) by lra.
    rewrite relu_spec_pos by lra.
    pose proof (pow2_ge_0 (x - min_knot)). nra. }
  destruct (Rle_or_lt x max_knot) as [H3 | H3].
  { rewrite (relu_spec_neg (x - max_knot)) by lra.
    rewrite !relu_spec_pos by lra.
    pose proof (middle_slope_nonpos (x - min_knot) (knot - min_knot)
                  (max_knot - min_knot)) as H.
    replace (x - min_knot - (knot - min_knot)) with (x - knot) in H by ring.
    replace (max_knot - min_knot - (knot - min_knot)) with (max_knot - knot)
      in H by ring.
    assert (H' := H ltac:(lra) ltac:(lra) ltac:(lra) ltac:(lra)). lra. }
  rewrite !relu_spec_pos by lra.
  replace (3 * (x - knot) ^ 2
           - ((max_knot - knot) / (max_knot - min_knot) * (3 * (x - min_knot) ^ 2)
              + (1 - (max_knot - knot) / (max_knot - min_knot))
                * (3 * (x - max_knot) ^ 2)))
    with (- (3 * (max_knot - knot) * (knot - min_knot))) by (field; lra).
  assert (0 < 3 * (max_knot - knot) * (knot - min_knot))
    by (repeat apply Rmult_lt_0_compat; lra).
  lra.
Qed.

(** X14.  With [min_knot < knot < max_knot] the basis has a derivative
    in [x] at every point, and that derivative is nowhere positive: as
    a function of [x] the basis has no rising part. *)
Theorem basis_slope_never_positive (knot min_knot max_knot x : R) :
  min_knot < knot -> knot < max_knot ->
  derivable_pt_lim (basis_fn knot min_knot max_knot) x
    (basis_deriv knot min_knot max_knot x) /\
  basis_deriv knot min_knot max_knot x <= 0.
Proof.
  intros Hk HM. split; [apply basis_fn_derivable | by apply basis_deriv_nonpos].
Qed.

Lemma basis_slope_never_positive_witness :
  derivable_pt_lim (basis_fn 1 0 3) 2 (basis_deriv 1 0 3 2) /\
  basis_deriv 1 0 3 2 <= 0.
Proof. apply basis_slope_never_positive; lra. Defined.

(** ** Changing the unit of time *)







(** ** What is never read *)

(** X16.  The models read the design matrix of ["beta_"] only: the
    matrices lifelines builds for ["phi1_"] and ["phi2_"] have no
    effect, so covariates placed on those parameters are ignored.  The
    Alt-Weibull model reads neither [self] nor any parameter besides
    ["beta_"] and ["phi1_"]. *)
Theorem only_beta_design_is_read (self self' : list (gmap string value))
    (params params' : gmap string (list R)) (T : ndarray)
    (Xs Xs' : gmap string (list (list R))) :
  Xs !! "beta_" = Xs' !! "beta_" ->
  PHSplineFitter._cumulative_hazard self params T Xs
    = PHSplineFitter._cumulative_hazard self params T Xs' /\
  POSplineFitter._cumulative_hazard self params T Xs
    = POSplineFitter._cumulative_hazard self params T Xs' /\
  (params !! "beta_" = params' !! "beta_" ->
   params !! "phi1_" = params' !! "phi1_" ->
   AltWeibullFitter._cumulative_hazard self params T Xs
   = AltWeibullFitter._cumulative_hazard self' params' T Xs').
Proof.
  intros HX.
  unfold PHSplineFitter._cumulative_hazard, POSplineFitter._cumulative_hazard,
    AltWeibullFitter._cumulative_hazard, getitem.
  rewrite HX. repeat split. by intros -> ->.
Qed.

Lemma only_beta_design_is_read_witness :
  PHSplineFitter._cumulative_hazard (new (PHSplineFitter.mro lifelines_defaults))
    example_params (Arr example_T) example_Xs
  = PHSplineFitter._cumulative_hazard (new (PHSplineFitter.mro lifelines_defaults))
      example_params (Arr example_T)
      (<["phi1_" := [[1; 7]; [1; 9]]]> example_Xs).
Proof.
  destruct (only_beta_design_is_read (new (PHSplineFitter.mro lifelines_defaults))
              [] example_params ∅ (Arr example_T) example_Xs
              (<["phi1_" := [[1; 7]; [1; 9]]]> example_Xs)) as (H & _).
  - reflexivity.
  - exact H.
Defined.

(** ** [relu] *)

(** X17.  [relu] never raises and keeps the shape; its values are never
    negative, it leaves a non-negative array as it is, and applying it
    twice is applying it once. *)
Theorem relu_clamps_at_zero (xs : list R) :
  exists ys,
    SplineFitter.relu (Arr xs) = Ok (Arr ys) /\
    length ys = length xs /\
    Forall (fun y => 0 <= y) ys /\
    SplineFitter.relu (Arr ys) = Ok (Arr ys) /\
    (Forall (fun x => 0 <= x) xs -> ys = xs).
Proof.
  exists (map (Rmax 0) xs). split; [reflexivity|].
  split; [apply length_map|]. split; [|split].
  - apply Forall_forall. intros y Hy.
    apply list_elem_of_In, in_map_iff in Hy as (x & <- & _). apply Rmax_l.
  - unfold SplineFitter.relu, np.maximum. rewrite broadcast_Sc_Arr, map_map.
    do 2 f_equal. induction xs as [|x xs IH]; simpl; [done|].
    rewrite IH. f_equal. apply Rmax_right, Rmax_l.
  - induction 1 as [|x l Hx _ IH]; simpl; [done|].
    by rewrite IH, Rmax_right.
Qed.

(** ** The linear predictor of the script *)

(** X18.  For a patient at least one year old, with a non-negative
    number of nodes and progesterone receptor above −1, each covariate
    moves the published linear predictor in one direction only: more
    nodes never lower it, a higher progesterone receptor never raises
    it, grade 2 and above never gives less than a grade below 2, and
    more of the hormone-therapy indicator never raises it. *)
Theorem linear_predictor_effects (age grade nodes prog_recp hormone : R) :
  1 <= age -> 0 <= nodes -> -1 < prog_recp ->
  (forall nodes', nodes <= nodes' ->
     lp_row age grade nodes prog_recp hormone
     <= lp_row age grade nodes' prog_recp hormone) /\
  (forall prog_recp', prog_recp <= prog_recp' ->
     lp_row age grade nodes prog_recp' hormone
     <= lp_row age grade nodes prog_recp hormone) /\
  (forall grade', grade < 2 -> 2 <= grade' ->
     lp_row age grade nodes prog_recp hormone
     <= lp_row age grade' nodes prog_recp hormone) /\
  (forall hormone', hormone <= hormone' ->
     lp_row age grade nodes prog_recp hormone'
     <= lp_row age grade nodes prog_recp hormone).
Proof.
  intros Hage Hnodes Hprog. unfold lp_row. repeat split.
  - intros nodes' [Hn | <-]; [|lra].
    assert (exp (-0.12 * nodes') < exp (-0.12 * nodes))
      by (apply exp_increasing; lra).
    lra.
  - intros prog_recp' [Hp | <-]; [|lra].
    assert (Rpower (prog_recp + 1) 0.5 < Rpower (prog_recp' + 1) 0.5)
      by (apply Rlt_Rpower_l; lra).
    lra.
  - intros grade' Hg Hg'.
    destruct (Rle_dec 2 grade'), (Rle_dec 2 grade); lra.
  - intros hormone' Hh. lra.
Qed.

Lemma linear_predictor_effects_witness :
  lp_row 50 1 3 10 1 <= lp_row 50 1 3 10 0 /\
  lp_row 50 1 3 10 0 <= lp_row 50 1 4 10 0.
Proof.
  destruct (linear_predictor_effects 50 1 3 10 0) as (H1 & _ & _ & H4);
    [lra | lra | lra |].
  split; [apply H4 | apply H1]; lra.
Defined.

(** ** Second-order smoothness of the basis *)

Lemma relu_shift_continuous (c x : R) :
  continuity_pt (fun x => Rmax 0 (x - c)) x.
Proof.
  intros eps Heps. exists eps. split; [done|].
  intros y [_ Hy]. simpl in *. unfold R_dist in *.
  eapply Rle_lt_trans; [|exact Hy].
  unfold Rmax. destruct (Rle_dec 0 (y - c)), (Rle_dec 0 (x - c));
    unfold Rabs; repeat destruct (Rcase_abs _); lra.
Qed.

Lemma basis_deriv_derivable (knot min_knot max_knot x : R) :
  derivable_pt_lim (basis_deriv knot min_knot max_knot) x
    (basis_deriv2 knot min_knot max_knot x).
Proof.
  set (lam := (max_knot - knot) / (max_knot - min_knot)).
  pose (q c := fun x : R => Rmax 0 (x - c) ^ 2).
  change (basis_deriv knot min_knot max_knot)
    with (mult_real_fct 3 (q knot)
          - (mult_real_fct lam (mult_real_fct 3 (q min_knot))
             + mult_real_fct (1 - lam) (mult_real_fct 3 (q max_knot))))%F.
  replace (basis_deriv2 knot min_knot max_knot x)
    with (3 * (INR 2 * Rmax 0 (x - knot) ^ 1)
          - (lam * (3 * (INR 2 * Rmax 0 (x - min_knot) ^ 1))
             + (1 - lam) * (3 * (INR 2 * Rmax 0 (x - max_knot) ^ 1))))
    by (unfold basis_deriv2, relu_spec; fold lam; simpl INR; ring).
  apply derivable_pt_lim_minus;
    [apply derivable_pt_lim_scal, (relu_pow_shift_deriv 0)|].
  apply derivable_pt_lim_plus;
    do 2 apply derivable_pt_lim_scal; apply (relu_pow_shift_deriv 0).
Qed.

Lemma basis_deriv2_continuous (knot min_knot max_knot x : R) :
  continuity_pt (basis_deriv2 knot min_knot max_knot) x.
Proof.
  set (lam := (max_knot - knot) / (max_knot - min_knot)).
  pose (r c := fun x : R => Rmax 0 (x - c)).
  change (basis_deriv2 knot min_knot max_knot)
    with (mult_real_fct 6 (r knot)
          - (mult_real_fct lam (mult_real_fct 6 (r min_knot))
             + mult_real_fct (1 - lam) (mult_real_fct 6 (r max_knot))))%F.
  apply continuity_pt_minus; [apply continuity_pt_scal, relu_shift_continuous|].
  apply continuity_pt_plus;
    do 2 apply continuity_pt_scal; apply relu_shift_continuous.
Qed.

(** X19.  With [min_knot < knot < max_knot] the basis is twice
    continuously differentiable in [x]: it has a first derivative
    everywhere, that derivative has a derivative everywhere, and the
    second derivative is continuous, the knots included. *)
Theorem basis_twice_continuously_differentiable (knot min_knot max_knot x : R) :
  min_knot < knot -> knot < max_knot ->
  derivable_pt_lim (basis_fn knot min_knot max_knot) x
    (basis_deriv knot min_knot max_knot x) /\
  derivable_pt_lim (basis_deriv knot min_knot max_knot) x
    (basis_deriv2 knot min_knot max_knot x) /\
  continuity_pt (basis_deriv2 knot min_knot max_knot) x.
Proof.
  intros _ _. split; [apply basis_fn_derivable|].
  split; [apply basis_deriv_derivable | apply basis_deriv2_continuous].
Qed.

Lemma basis_twice_continuously_differentiable_witness :
  derivable_pt_lim (basis_fn 1 0 3) 1 (basis_deriv 1 0 3 1) /\
  derivable_pt_lim (basis_deriv 1 0 3) 1 (basis_deriv2 1 0 3 1) /\
  continuity_pt (basis_deriv2 1 0 3) 1.
Proof. apply basis_twice_continuously_differentiable; lra. Defined.
